(** * Verifiable prize draw (draw.ts): a shallow embedding and its properties

    The development follows [draw.ts]: the seed hash and the Mulberry32
    generator of [createSeededRandom], the weighted sampler
    [weightedRandomDraw], the tier loop of [conductDraw] and the table built
    by [generateOutput].

    JavaScript numbers are IEEE-754 doubles.  Every finite number the
    sampling core handles is integer valued (ticket counts, sums of ticket
    counts, the generator state), so a finite number is modelled by the
    integer it holds, and an arithmetic operation by the exact integer
    operation followed by the rounding of doubles ([round53]: 53 significant
    bits, ties to even).  The hash and the generator state stay far below the
    largest double, and are integers throughout.  A sum of ticket counts can
    pass the largest double: the sums, the ticket drawn from them and the
    comparisons of the scan are over [number], which has the infinities and
    NaN.  Ticket counts themselves are finite integers; fractional and NaN
    ticket counts are outside the model.  The 32-bit operators ([^], [|],
    [<<], [>>>], [Math.imul]) convert their operands with
    [ToInt32]/[ToUint32], which is reduction modulo 2^32. *)

From Stdlib Require Import QArith_base Zdivisibility.
From stdpp Require Import base numbers list strings gmap sorting.

Local Open Scope Z_scope.

(** ** Numbers *)

(** Nearest multiple of [q] to [a >= 0], ties to the even multiple. *)
Definition rne (a q : Z) : Z :=
  let d := a / q in
  let r := a mod q in
  if 2 * r <? q then d * q
  else if q <? 2 * r then (d + 1) * q
  else if Z.even d then d * q else (d + 1) * q.

(** The integer [z] rounded to 53 significant bits: integers below 2^53 in
    magnitude are kept; above, the result is a multiple of
    2^(log2 |z| - 52).  This is the double nearest to [z] as long as the
    result is below 2^1024 in magnitude; [overflow] adds the exponent
    range. *)
Definition round53 (z : Z) : Z :=
  let a := Z.abs z in
  if a <? 2 ^ 53 then z
  else Z.sgn z * rne a (2 ^ (Z.log2 a - 52)).

(** [x + y] and [x - y] on finite numbers, where the result is finite. *)
Definition num_add (x y : Z) : Z := round53 (x + y).
Definition num_sub (x y : Z) : Z := round53 (x - y).

(** A number of the sampler: a finite double holding the integer [z], an
    infinity, or NaN. *)
Inductive number := Num (z : Z) | PosInf | NegInf | NaN.

#[global] Instance number_eq_dec : EqDecision number.
Proof. solve_decision. Defined.

(** [x] is a finite number, neither an infinity nor NaN. *)
Definition isFinite (x : number) : Prop := ∃ z, x = Num z.

(** The double that an exact integer result [z] is delivered as: the
    rounding to 53 bits, and an infinity when that rounding is beyond the
    largest double, 2^1024 - 2^971. *)
Definition overflow (z : Z) : number :=
  let r := round53 z in
  if Z.abs r <? 2 ^ 1024 then Num r
  else if 0 <? r then PosInf else NegInf.

(** [x + y] on numbers. *)
Definition js_add (x y : number) : number :=
  match x, y with
  | Num a, Num b => overflow (a + b)
  | NaN, _ | _, NaN => NaN
  | PosInf, NegInf | NegInf, PosInf => NaN
  | PosInf, _ | _, PosInf => PosInf
  | NegInf, _ | _, NegInf => NegInf
  end.

(** [x < y] on numbers: false as soon as one side is NaN. *)
Definition js_lt (x y : number) : bool :=
  match x, y with
  | Num a, Num b => a <? b
  | NaN, _ | _, NaN => false
  | _, NegInf | PosInf, _ => false
  | NegInf, _ | _, PosInf => true
  end.

(** ECMAScript [ToInt32] and [ToUint32] of an integer-valued number. *)
Definition ToInt32 (x : Z) : Z := (x + 2 ^ 31) mod 2 ^ 32 - 2 ^ 31.
Definition ToUint32 (x : Z) : Z := x mod 2 ^ 32.

(** [a ^ b], [a | b], [a << n], [a >>> n] and [Math.imul(a, b)]. *)
Definition js_xor (a b : Z) : Z := Z.lxor (ToInt32 a) (ToInt32 b).
Definition js_or (a b : Z) : Z := Z.lor (ToInt32 a) (ToInt32 b).
Definition js_shl (a n : Z) : Z := ToInt32 (Z.shiftl (ToInt32 a) (n mod 32)).
Definition js_ushr (a n : Z) : Z := Z.shiftr (ToUint32 a) (n mod 32).
Definition imul (a b : Z) : Z := ToInt32 (ToInt32 a * ToInt32 b).

(** ** Data model *)

(** [PRIZE_TIERS] entries. *)
Record PrizeTier := mkTier {
  name : string;
  winners : nat;
  initPerWinner : Z;
}.

Definition PRIZE_TIERS : list PrizeTier :=
  [ mkTier "Grand Prize" 5 2500;
    mkTier "Major Prize" 20 1125;
    mkTier "Minor Prize" 50 300 ].

(** [interface PlayerEntry]. *)
Record PlayerEntry := mkPlayer {
  address : string;
  initSpent : Q;
  tickets : Z;
}.

(** [interface DrawResult]. *)
Record DrawResult := mkResult {
  r_address : string;
  init_spent : Q;
  r_tickets : Z;
  prize_tier : string;
  init_won : Z;
}.

(** The values of the [results] map: [{ tier: string; amount: number }]. *)
Record TierResult := mkTierResult {
  tier : string;
  amount : Z;
}.

(** ** createSeededRandom *)

(** [seed.charCodeAt(i)] for [i = 0 .. seed.length - 1]. *)
Definition charCodes (seed : string) : list Z :=
  (λ c, Z.of_N (Ascii.N_of_ascii c)) <$> String.list_ascii_of_string seed.

(** One iteration of the hashing loop:
    [hashValue = ((hashValue << 5) - hashValue + seed.charCodeAt(i)) | 0]. *)
Definition hashStep (hashValue c : Z) : Z :=
  js_or (num_add (num_sub (js_shl hashValue 5) hashValue) c) 0.

(** The loop over the code units of the seed, from [hashValue = 0]. *)
Definition hashCodes (codes : list Z) : Z := fold_left hashStep codes 0.

(** The state captured by the closure [createSeededRandom] returns. *)
Definition createSeededRandom (seed : string) : Z := hashCodes (charCodes seed).

(** The body of the returned closure after [let t = hashValue += 0x6D2B79F5]:
    the mixing of [t].  The result is the numerator [u] of the returned
    number [u / 4294967296]. *)
Definition mulberry32_mix (t : Z) : Z :=
  let t := imul (js_xor t (js_ushr t 15)) (js_or t 1) in
  let t := js_xor t (num_add t (imul (js_xor t (js_ushr t 7)) (js_or t 61))) in
  ToUint32 (js_xor t (js_ushr t 14)).

(** One call of the closure on the captured [hashValue]: the new value of
    [hashValue] and the numerator of the returned number. *)
Definition random (hashValue : Z) : Z * Z :=
  let hashValue := num_add hashValue 0x6D2B79F5 in
  (hashValue, mulberry32_mix hashValue).

(** The captured [hashValue] after [n] calls. *)
Fixpoint stateAfter (n : nat) (hashValue : Z) : Z :=
  match n with
  | O => hashValue
  | S n => stateAfter n (fst (random hashValue))
  end.

(** ** weightedRandomDraw *)

(** [remaining.reduce((sum, p) => sum + p.tickets, 0)]. *)
Definition addTickets (sum : number) (p : PlayerEntry) : number :=
  js_add sum (Num (tickets p)).

Definition totalTickets (remaining : list PlayerEntry) : number :=
  fold_left addTickets remaining (Num 0).

(** [Math.floor(random() * totalTickets)] where [random()] returned
    [u / 4294967296]: the product is rounded to a double, then floored.  The
    product of a number below 1 with a finite number is finite; with an
    infinity it is that infinity, or NaN when [random()] returned 0; the
    floor of an infinity or of NaN is itself. *)
Definition floorMul (u : Z) (totalTickets : number) : number :=
  match totalTickets with
  | Num t => Num (round53 (u * t) / 2 ^ 32)
  | PosInf => if decide (u = 0) then NaN else PosInf
  | NegInf => if decide (u = 0) then NaN else NegInf
  | NaN => NaN
  end.

(** The scan [for (let j = 0; j < remaining.length; j++)], entered with the
    running [cumulative] and index [j]; [None] is [winnerIndex = -1]. *)
Fixpoint scanFrom (remaining : list PlayerEntry) (randomTicket cumulative : number)
    (j : nat) : option nat :=
  match remaining with
  | [] => None
  | p :: rest =>
      let cumulative := addTickets cumulative p in
      if js_lt randomTicket cumulative then Some j
      else scanFrom rest randomTicket cumulative (S j)
  end.

Definition findWinner (remaining : list PlayerEntry) (randomTicket : number)
    : option nat :=
  scanFrom remaining randomTicket (Num 0) 0.

(** The loop [for (let i = 0; i < count && remaining.length > 0; i++)],
    entered with [count - i] iterations to go.  It returns the captured
    generator state and the arrays [winners] and [remaining]. *)
Fixpoint drawLoop (togo : nat) (hashValue : Z) (winners remaining : list PlayerEntry)
    : Z * list PlayerEntry * list PlayerEntry :=
  match togo with
  | O => (hashValue, winners, remaining)
  | S togo =>
      match remaining with
      | [] => (hashValue, winners, remaining)
      | _ :: _ =>
          let total := totalTickets remaining in
          if decide (total = Num 0) then (hashValue, winners, remaining)
          else
            let '(hashValue, u) := random hashValue in
            let randomTicket := floorMul u total in
            match findWinner remaining randomTicket with
            | Some winnerIndex =>
                match remaining !! winnerIndex with
                | Some w =>
                    drawLoop togo hashValue (winners ++ [w]) (delete winnerIndex remaining)
                | None => drawLoop togo hashValue winners remaining
                end
            | None => drawLoop togo hashValue winners remaining
            end
      end
  end.

(** [weightedRandomDraw(players, count, random)]: the generator state after
    the call and the returned [winners]. *)
Definition weightedRandomDraw (players : list PlayerEntry) (count : nat)
    (hashValue : Z) : Z * list PlayerEntry :=
  let '(hashValue, winners, _) := drawLoop count hashValue [] players in
  (hashValue, winners).

(** ** conductDraw *)

(** The inner loop [for (const winner of winners)]: record the winner and
    filter it out of [eligiblePlayers]. *)
Fixpoint recordWinners (t : PrizeTier) (ws : list PlayerEntry)
    (results : gmap string TierResult) (eligiblePlayers : list PlayerEntry)
    : gmap string TierResult * list PlayerEntry :=
  match ws with
  | [] => (results, eligiblePlayers)
  | winner :: ws =>
      recordWinners t ws
        (<[address winner := mkTierResult (name t) (initPerWinner t)]> results)
        (filter (λ p, address p ≠ address winner) eligiblePlayers)
  end.

(** The state of the tier loop; [drawn] is a ghost history: the [winners]
    array of every tier processed so far, in tier order. *)
Record DrawState := mkDrawState {
  ds_hashValue : Z;
  ds_results : gmap string TierResult;
  ds_eligible : list PlayerEntry;
  ds_drawn : list (list PlayerEntry);
}.

(** The body of the loop [for (const tier of PRIZE_TIERS)]. *)
Definition tierStep (st : DrawState) (t : PrizeTier) : DrawState :=
  let '(hashValue, ws) :=
    weightedRandomDraw (ds_eligible st) (winners t) (ds_hashValue st) in
  let '(results, eligiblePlayers) :=
    recordWinners t ws (ds_results st) (ds_eligible st) in
  mkDrawState hashValue results eligiblePlayers (ds_drawn st ++ [ws]).

(** The loop, over the tiers in their order. *)
Definition tierLoop (tiers : list PrizeTier) (st : DrawState) : DrawState :=
  fold_left tierStep tiers st.

(** [conductDraw] over a tier list: the final state of the tier loop. *)
Definition conductDrawState (tiers : list PrizeTier) (players : list PlayerEntry)
    (nistRandomness : string) : DrawState :=
  tierLoop tiers
    (mkDrawState (createSeededRandom nistRandomness) ∅
       (filter (λ p, 0 < tickets p) players) []).

(** The returned map, for a tier list and for the configured [PRIZE_TIERS]. *)
Definition conductDrawWith (tiers : list PrizeTier) (players : list PlayerEntry)
    (nistRandomness : string) : gmap string TierResult :=
  ds_results (conductDrawState tiers players nistRandomness).

Definition conductDraw (players : list PlayerEntry) (nistRandomness : string)
    : gmap string TierResult :=
  conductDrawWith PRIZE_TIERS players nistRandomness.

(** The [winners] arrays of the tiers, in tier order. *)
Definition tierWinners (tiers : list PrizeTier) (players : list PlayerEntry)
    (nistRandomness : string) : list (list PlayerEntry) :=
  ds_drawn (conductDrawState tiers players nistRandomness).

(** ** generateOutput *)

(** The row built by [players.map] for one player. *)
Definition outputRow (results : gmap string TierResult) (player : PlayerEntry)
    : DrawResult :=
  let result := results !! address player in
  mkResult (address player) (initSpent player) (tickets player)
    (default "" (tier <$> result)) (default 0 (amount <$> result)).

(** The comparator passed to [output.sort].  The sort reads the sign of the
    difference only, which a difference beyond the largest double keeps. *)
Definition compareRows (a b : DrawResult) : Z :=
  if decide (init_won a ≠ init_won b) then num_sub (init_won b) (init_won a)
  else num_sub (r_tickets b) (r_tickets a).

(** [Array.prototype.sort] is stable; with a consistent comparator its result
    is the stable sorted arrangement, computed here by insertion. *)
Fixpoint insertRow (x : DrawResult) (l : list DrawResult) : list DrawResult :=
  match l with
  | [] => [x]
  | y :: l' => if compareRows x y <=? 0 then x :: l else y :: insertRow x l'
  end.

Definition sortRows (l : list DrawResult) : list DrawResult :=
  foldr insertRow [] l.

(** The array [output] handed to [stringify]. *)
Definition generateOutput (players : list PlayerEntry)
    (results : gmap string TierResult) : list DrawResult :=
  sortRows (outputRow results <$> players).

(** ** printSummary

    The numbers [printSummary] logs.  [entries] is
    [Array.from(results.entries())], the entries of the map in its
    iteration order.  The amounts summed are payouts of [PRIZE_TIERS], one
    per entry of the map: these sums are finite. *)
Record TierSummary := mkTierSummary {
  ts_name : string;
  ts_winners : nat;
  ts_configured : nat;
  ts_total : Z;
}.

Record Summary := mkSummary {
  totalPlayers : nat;
  playersWithTickets : nat;
  sm_totalTickets : number;
  sm_tiers : list TierSummary;
  totalDistributed : Z;
}.

(** [entries.filter(([_, r]) => r.tier === tier.name)]. *)
Definition tierEntries (entries : list (string * TierResult)) (t : PrizeTier)
    : list (string * TierResult) :=
  filter (λ e, tier (snd e) = name t) entries.

(** [tierWinners.reduce((sum, [_, r]) => sum + r.amount, 0)]. *)
Definition tierTotal (es : list (string * TierResult)) : Z :=
  fold_left (λ sum e, num_add sum (amount (snd e))) es 0.

Definition summarizeTier (entries : list (string * TierResult)) (t : PrizeTier)
    : TierSummary :=
  mkTierSummary (name t) (length (tierEntries entries t)) (winners t)
    (tierTotal (tierEntries entries t)).

Definition printSummaryWith (tiers : list PrizeTier) (players : list PlayerEntry)
    (entries : list (string * TierResult)) : Summary :=
  let rows := summarizeTier entries <$> tiers in
  mkSummary (length players) (length (filter (λ p, 0 < tickets p) players))
    (totalTickets players) rows
    (fold_left (λ totalDistributed r, num_add totalDistributed (ts_total r)) rows 0).

Definition printSummary (players : list PlayerEntry)
    (entries : list (string * TierResult)) : Summary :=
  printSummaryWith PRIZE_TIERS players entries.

(** ** main

    What [main] hands to the CSV writer, given the loaded [players] and the
    fetched beacon value: the draw, then the table. *)
Definition mainOutput (players : list PlayerEntry) (nistRandomness : string)
    : list DrawResult :=
  generateOutput players (conductDraw players nistRandomness).

(** ** The draw over a store

    [weightedRandomDraw] and [conductDraw] receive the array [players] by
    reference, and the arrays hold references to the [PlayerEntry] objects.
    The second model keeps arrays and objects in a store, so that copying
    ([[...players]], [filter]) and in-place update ([push], [splice]) are
    different things. *)

Definition loc := positive.

Record Store := mkStore {
  st_arrays : gmap loc (list loc);
  st_objects : gmap loc PlayerEntry;
  st_hashValue : Z;
}.

(** Computations on the store that may get stuck on a dangling reference. *)
Definition M (A : Type) : Type := Store → option (A * Store).

Definition retM {A} (x : A) : M A := λ σ, Some (x, σ).

Definition bindM {A B} (m : M A) (k : A → M B) : M B :=
  λ σ, match m σ with
       | Some (x, σ') => k x σ'
       | None => None
       end.

Notation "'let*' x ':=' m 'in' k" := (bindM m (λ x, k))
  (at level 10, x pattern, m at level 100, k at level 200).

(** A new array holding [xs], at a fresh location. *)
Definition newArray (xs : list loc) : M loc :=
  λ σ, let a := fresh (dom (st_arrays σ)) in
       Some (a, mkStore (<[a := xs]> (st_arrays σ)) (st_objects σ) (st_hashValue σ)).

Definition getArray (a : loc) : M (list loc) :=
  λ σ, (λ xs, (xs, σ)) <$> st_arrays σ !! a.

(** In-place update of the array at [a]. *)
Definition setArray (a : loc) (xs : list loc) : M unit :=
  λ σ, match st_arrays σ !! a with
       | Some _ => Some (tt, mkStore (<[a := xs]> (st_arrays σ)) (st_objects σ) (st_hashValue σ))
       | None => None
       end.

Definition getPlayer (o : loc) : M PlayerEntry :=
  λ σ, (λ p, (p, σ)) <$> st_objects σ !! o.

(** The closure [random]: [hashValue] lives in the store. *)
Definition setHashValue (h : Z) : M unit :=
  λ σ, Some (tt, mkStore (st_arrays σ) (st_objects σ) h).

Definition callRandom : M Z :=
  λ σ, let '(h, u) := random (st_hashValue σ) in
       Some (u, mkStore (st_arrays σ) (st_objects σ) h).

(** [remaining.reduce((sum, p) => sum + p.tickets, 0)] over references. *)
Fixpoint sumTicketsM (refs : list loc) (sum : number) : M number :=
  match refs with
  | [] => retM sum
  | o :: refs =>
      let* p := getPlayer o in
      sumTicketsM refs (addTickets sum p)
  end.

Fixpoint scanFromM (refs : list loc) (randomTicket cumulative : number) (j : nat)
    : M (option nat) :=
  match refs with
  | [] => retM None
  | o :: rest =>
      let* p := getPlayer o in
      let cumulative := addTickets cumulative p in
      if js_lt randomTicket cumulative then retM (Some j)
      else scanFromM rest randomTicket cumulative (S j)
  end.

(** The draw loop on the arrays at [winners] and [remaining]. *)
Fixpoint drawLoopM (togo : nat) (winners remaining : loc) : M unit :=
  match togo with
  | O => retM tt
  | S togo =>
      let* refs := getArray remaining in
      match refs with
      | [] => retM tt
      | _ :: _ =>
          let* total := sumTicketsM refs (Num 0) in
          if decide (total = Num 0) then retM tt
          else
            let* u := callRandom in
            let randomTicket := floorMul u total in
            let* winnerIndex := scanFromM refs randomTicket (Num 0) 0 in
            match winnerIndex with
            | Some winnerIndex =>
                match refs !! winnerIndex with
                | Some w =>
                    let* ws := getArray winners in
                    let* _ := setArray winners (ws ++ [w]) in
                    let* rs := getArray remaining in
                    let* _ := setArray remaining (delete winnerIndex rs) in
                    drawLoopM togo winners remaining
                | None => drawLoopM togo winners remaining
                end
            | None => drawLoopM togo winners remaining
            end
      end
  end.

(** [weightedRandomDraw(players, count, random)] on the array at [players];
    the result is the location of the new array [winners]. *)
Definition weightedRandomDrawM (players : loc) (count : nat) : M loc :=
  let* winners := newArray [] in
  let* refs := getArray players in
  let* remaining := newArray refs in
  let* _ := drawLoopM count winners remaining in
  retM winners.

(** [arr.filter(p => f(p))]: a new array. *)
Fixpoint keepM (f : PlayerEntry → bool) (refs : list loc) : M (list loc) :=
  match refs with
  | [] => retM []
  | o :: refs =>
      let* p := getPlayer o in
      let* kept := keepM f refs in
      retM (if f p then o :: kept else kept)
  end.

Definition filterM (f : PlayerEntry → bool) (arr : loc) : M loc :=
  let* refs := getArray arr in
  let* kept := keepM f refs in
  newArray kept.

Fixpoint recordWinnersM (t : PrizeTier) (ws : list loc)
    (results : gmap string TierResult) (eligiblePlayers : loc)
    : M (gmap string TierResult * loc) :=
  match ws with
  | [] => retM (results, eligiblePlayers)
  | w :: ws =>
      let* winner := getPlayer w in
      let* eligiblePlayers :=
        filterM (λ p, bool_decide (address p ≠ address winner)) eligiblePlayers in
      recordWinnersM t ws
        (<[address winner := mkTierResult (name t) (initPerWinner t)]> results)
        eligiblePlayers
  end.

Fixpoint tierLoopM (tiers : list PrizeTier) (results : gmap string TierResult)
    (eligiblePlayers : loc) : M (gmap string TierResult) :=
  match tiers with
  | [] => retM results
  | t :: tiers =>
      let* winners := weightedRandomDrawM eligiblePlayers (winners t) in
      let* ws := getArray winners in
      let* (results, eligiblePlayers) := recordWinnersM t ws results eligiblePlayers in
      tierLoopM tiers results eligiblePlayers
  end.

(** [conductDraw(players, nistRandomness)] on the array at [players]. *)
Definition conductDrawM (tiers : list PrizeTier) (players : loc)
    (nistRandomness : string) : M (gmap string TierResult) :=
  let* _ := setHashValue (createSeededRandom nistRandomness) in
  let* eligiblePlayers := filterM (λ p, bool_decide (0 < tickets p)) players in
  tierLoopM tiers ∅ eligiblePlayers.

(** The records an array of references denotes. *)
Definition resolve (σ : Store) (refs : list loc) : option (list PlayerEntry) :=
  mapM (λ o, st_objects σ !! o) refs.

(** [σ'] has the objects of [σ], and every array of [σ] with its contents. *)
Definition extends (σ σ' : Store) : Prop :=
  st_objects σ' = st_objects σ ∧
  ∀ a xs, st_arrays σ !! a = Some xs → st_arrays σ' !! a = Some xs.

(** ** Reference definitions, following the specification *)

(** The population of the worked example of section 8. *)
Definition examplePlayers : list PlayerEntry :=
  [ mkPlayer "A" 30000 300; mkPlayer "B" 10000 100; mkPlayer "C" 0 0 ].

(** A population in which the address A occurs twice. *)
Definition repeatedPlayers : list PlayerEntry :=
  [ mkPlayer "A" 100 1; mkPlayer "B" 100 1; mkPlayer "A" 200 2; mkPlayer "C" 100 1;
    mkPlayer "D" 100 1; mkPlayer "E" 100 1; mkPlayer "F" 100 1; mkPlayer "G" 100 1 ].

(** Two participants whose weights are doubles and sum to 2^1024, which is
    beyond the largest double. *)
Definition hugePlayers : list PlayerEntry :=
  [ mkPlayer "A" 0 (2 ^ 1023); mkPlayer "B" 0 (2 ^ 1023) ].

(** A store holding that population: the array at location 1 refers to the
    three records. *)
Definition exampleStore : Store :=
  mkStore {[ 1%positive := [1; 2; 3]%positive ]}
    (list_to_map (zip [1; 2; 3]%positive examplePlayers)) 0.

(** What the draw reads of a participant: the identifier and the weight. *)
Definition drawInput (p : PlayerEntry) : string * Z := (address p, tickets p).

(** The participant with these inputs and nothing else. *)
Definition ofDrawInput (k : string * Z) : PlayerEntry := mkPlayer (fst k) 0 (snd k).

(** A participant and a loop state stripped of what the draw does not read. *)
Definition bare (p : PlayerEntry) : PlayerEntry := ofDrawInput (drawInput p).

Definition bareState (st : DrawState) : DrawState :=
  mkDrawState (ds_hashValue st) (ds_results st) (bare <$> ds_eligible st)
    (fmap (M := list) bare <$> ds_drawn st).

(** The sum of the weights, as an integer (no rounding). *)
Definition exactWeight (l : list PlayerEntry) : Z :=
  foldr (λ p s, tickets p + s) 0 l.

(** The participants a draw can select. *)
Definition positive (l : list PlayerEntry) : list PlayerEntry :=
  filter (λ p, 0 < tickets p) l.

(** The state of the tier loop after the tiers [done]: no winner so far has
    an address that is still in the pool, no address was drawn in two tiers,
    and every winner is recorded with its tier. *)
Definition recorded (done : list PrizeTier) (st : DrawState) : Prop :=
  length (ds_drawn st) = length done ∧
  (∀ a, a ∈ address <$> concat (ds_drawn st) → a ∉ address <$> ds_eligible st) ∧
  (∀ i j wi wj a, i ≠ j → ds_drawn st !! i = Some wi → ds_drawn st !! j = Some wj →
                  a ∈ address <$> wi → a ∉ address <$> wj) ∧
  (∀ i t ws w, done !! i = Some t → ds_drawn st !! i = Some ws → w ∈ ws →
               ds_results st !! address w
               = Some (mkTierResult (name t) (initPerWinner t))).

(** Section 4.1: [acc = acc*31 + charCode], wrapped to signed 32 bits. *)
Definition specHash (codes : list Z) : Z :=
  fold_left (λ acc c, ToInt32 (acc * 31 + c)) codes 0.

(** The hash as a polynomial in 31, with no wrap-around. *)
Definition polyHash (codes : list Z) : Z :=
  fold_left (λ acc c, acc * 31 + c) codes 0.

(** The mixing of Mulberry32 on an unsigned 32-bit word, every product and
    sum truncated to 32 bits. *)
Definition mixU32 (t : Z) : Z :=
  let t := (Z.lxor t (Z.shiftr t 15) * Z.lor t 1) mod 2 ^ 32 in
  let t := Z.lxor t ((t + (Z.lxor t (Z.shiftr t 7) * Z.lor t 61) mod 2 ^ 32) mod 2 ^ 32) in
  Z.lxor t (Z.shiftr t 14).

(** Section 4.2, step 1: [state = (state + 0x6D2B79F5) mod 2^32]. *)
Definition specStateStep (state : Z) : Z := (state + 0x6D2B79F5) mod 2 ^ 32.

(** Cumulative weight of the first [k] participants, by the code's
    left-to-right additions. *)
Definition cumulativeTo (remaining : list PlayerEntry) (k : nat) : number :=
  totalTickets (take k remaining).

(** The order [output.sort] establishes: larger [init_won] first, equal
    [init_won] by larger [tickets]. *)
Definition rowBefore (a b : DrawResult) : Prop :=
  init_won b < init_won a ∨ (init_won a = init_won b ∧ r_tickets b ≤ r_tickets a).

(** Winner counts when [eligible] participants are handed out to tiers of
    sizes [counts], in order. *)
Fixpoint filledInOrder (eligible : nat) (counts : list nat) : list nat :=
  match counts with
  | [] => []
  | c :: counts => (c `min` eligible)%nat :: filledInOrder (eligible - c) counts
  end.

(** * Properties *)

(** ** Rounding to a double *)

Section Rounding.

Implicit Types a b q z : Z.

Lemma rne_lower a q : 0 < q → a / q * q ≤ rne a q.
Proof.
  intros Hq. unfold rne.
  repeat case_match; nia.
Qed.

Lemma rne_upper a q : 0 < q → rne a q ≤ (a / q + 1) * q.
Proof.
  intros Hq. unfold rne.
  repeat case_match; nia.
Qed.

Lemma rne_near a q : 0 < q → 2 * rne a q ≤ 2 * a + q.
Proof.
  intros Hq. unfold rne.
  pose proof (Z.div_mod a q ltac:(lia)) as Hdm.
  pose proof (Z.mod_pos_bound a q Hq) as Hr.
  repeat case_match; nia.
Qed.

Lemma rne_multiple a q : 0 < q → a mod q = 0 → rne a q = a.
Proof.
  intros Hq Hm. unfold rne. rewrite Hm.
  pose proof (Z.div_mod a q ltac:(lia)) as Hdm.
  destruct (2 * 0 <? q) eqn:E; [lia | apply Z.ltb_ge in E; lia].
Qed.

Lemma rne_mono a b q : 0 < q → a ≤ b → rne a q ≤ rne b q.
Proof.
  intros Hq Hab.
  pose proof (Z.div_le_mono a b q Hq Hab) as Hd.
  destruct (decide (a / q = b / q)) as [He | Hne].
  - pose proof (Z.div_mod a q ltac:(lia)) as Ha.
    pose proof (Z.div_mod b q ltac:(lia)) as Hb.
    assert (a mod q ≤ b mod q) as Hr by nia.
    unfold rne. rewrite He.
    repeat case_match; nia.
  - pose proof (rne_upper a q Hq). pose proof (rne_lower b q Hq). nia.
Qed.

Lemma log2_between a b : 0 ≤ a → 2 ^ a ≤ b < 2 * 2 ^ a → Z.log2 b = a.
Proof.
  intros Ha Hb. apply Z.log2_unique; [done |].
  rewrite Z.pow_succ_r by done. lia.
Qed.

(** The shape of a number of magnitude at least 2^53. *)
Lemma big_shape z :
  2 ^ 53 ≤ z →
  ∃ k q, k = Z.log2 z ∧ 53 ≤ k ∧ q = 2 ^ (k - 52) ∧ 0 < q ∧
         2 ^ k = 2 ^ 52 * q ∧ 2 ^ 52 * q ≤ z < 2 ^ 53 * q ∧
         round53 z = rne z q.
Proof.
  intros Hz.
  assert (0 < z) as Hpos by lia.
  pose proof (Z.log2_spec z Hpos) as [Hlo Hhi].
  assert (53 ≤ Z.log2 z) as Hk.
  { rewrite <- (Z.log2_pow2 53) by lia. by apply Z.log2_le_mono. }
  exists (Z.log2 z), (2 ^ (Z.log2 z - 52)).
  assert (2 ^ Z.log2 z = 2 ^ 52 * 2 ^ (Z.log2 z - 52)) as Hsplit.
  { rewrite <- Z.pow_add_r by lia. f_equal. lia. }
  assert (2 ^ Z.succ (Z.log2 z) = 2 ^ 53 * 2 ^ (Z.log2 z - 52)) as Hsplit'.
  { rewrite <- Z.pow_add_r by lia. f_equal. lia. }
  assert (0 < 2 ^ (Z.log2 z - 52)) by (apply Z.pow_pos_nonneg; lia).
  repeat split; try lia.
  unfold round53. rewrite Z.abs_eq by lia.
  destruct (z <? 2 ^ 53) eqn:E; [apply Z.ltb_lt in E; lia |].
  rewrite Z.sgn_pos by lia. lia.
Qed.

Lemma round53_exact z : Z.abs z < 2 ^ 53 → round53 z = z.
Proof.
  intros H. unfold round53.
  destruct (Z.abs z <? 2 ^ 53) eqn:E; [done | apply Z.ltb_ge in E; lia].
Qed.

Lemma round53_opp z : round53 (- z) = - round53 z.
Proof.
  unfold round53. rewrite Z.abs_opp, Z.sgn_opp.
  case_match; lia.
Qed.

Lemma round53_big_bounds z :
  2 ^ 53 ≤ z → 2 ^ Z.log2 z ≤ round53 z ≤ 2 ^ (Z.log2 z + 1).
Proof.
  intros Hz. destruct (big_shape z Hz) as (k & q & -> & Hk & Hq & Hqpos & Hsplit & Hrange & ->).
  assert (2 ^ (Z.log2 z + 1) = 2 ^ 53 * q) as ->.
  { rewrite Z.pow_add_r by lia. lia. }
  rewrite Hsplit.
  pose proof (rne_lower z q Hqpos). pose proof (rne_upper z q Hqpos).
  assert (2 ^ 52 ≤ z / q) by (apply Z.div_le_lower_bound; lia).
  assert (z / q < 2 ^ 53) by (apply Z.div_lt_upper_bound; lia).
  split; nia.
Qed.

Lemma round53_nonneg z : 0 ≤ z → 0 ≤ round53 z.
Proof.
  intros Hz. destruct (decide (z < 2 ^ 53)).
  - rewrite round53_exact; lia.
  - pose proof (round53_big_bounds z ltac:(lia)) as [H _].
    pose proof (Z.pow_pos_nonneg 2 (Z.log2 z) ltac:(lia) (Z.log2_nonneg z)). lia.
Qed.

(** Rounding is monotone on the non-negative numbers. *)
Lemma round53_mono a b : 0 ≤ a → a ≤ b → round53 a ≤ round53 b.
Proof.
  intros Ha Hab.
  destruct (decide (b < 2 ^ 53)) as [Hb | Hb].
  { rewrite !round53_exact; lia. }
  destruct (decide (a < 2 ^ 53)) as [Ha' | Ha'].
  { rewrite (round53_exact a) by lia.
    pose proof (round53_big_bounds b ltac:(lia)) as [H _].
    pose proof (Z.log2_spec b ltac:(lia)) as [_ Hhi].
    assert (2 ^ 53 ≤ 2 ^ Z.log2 b).
    { apply Z.pow_le_mono_r; [lia |].
      rewrite <- (Z.log2_pow2 53) by lia. apply Z.log2_le_mono. lia. }
    lia. }
  pose proof (Z.log2_le_mono a b Hab) as Hlog.
  destruct (decide (Z.log2 a = Z.log2 b)) as [He | Hne].
  - destruct (big_shape a ltac:(lia)) as (k & q & -> & _ & Hq & Hqpos & _ & _ & ->).
    destruct (big_shape b ltac:(lia)) as (k' & q' & -> & _ & Hq' & _ & _ & _ & ->).
    subst q'. rewrite <- He, <- Hq. by apply rne_mono.
  - pose proof (round53_big_bounds a ltac:(lia)) as [_ Hup].
    pose proof (round53_big_bounds b ltac:(lia)) as [Hlo _].
    assert (2 ^ (Z.log2 a + 1) ≤ 2 ^ Z.log2 b) by (apply Z.pow_le_mono_r; lia).
    lia.
Qed.

(** A rounded number is a double: rounding it again changes nothing. *)
Lemma round53_idem z : round53 (round53 z) = round53 z.
Proof.
  assert (∀ x, 0 ≤ x → round53 (round53 x) = round53 x) as Hpos.
  { intros x Hx. destruct (decide (x < 2 ^ 53)) as [Hs | Hs].
    { by rewrite !(round53_exact x) by lia. }
    destruct (big_shape x ltac:(lia)) as (k & q & Hk & Hk53 & Hq & Hqpos & Hsplit & Hrange & Hr).
    pose proof (rne_lower x q Hqpos) as Hlo. pose proof (rne_upper x q Hqpos) as Hup.
    assert (2 ^ 52 ≤ x / q) by (apply Z.div_le_lower_bound; lia).
    assert (x / q < 2 ^ 53) by (apply Z.div_lt_upper_bound; lia).
    assert (∃ m, rne x q = m * q ∧ 2 ^ 52 ≤ m ≤ 2 ^ 53) as (m & Hm & Hmr).
    { unfold rne in *. repeat case_match; eauto with lia. }
    rewrite Hr, Hm.
    assert (2 ^ 53 ≤ m * q) as Hbig by nia.
    destruct (big_shape (m * q) Hbig) as (k' & q' & Hk' & _ & Hq' & Hq'pos & _ & _ & ->).
    apply rne_multiple; [done |].
    destruct (decide (m = 2 ^ 53)) as [-> | Hne].
    - assert (k' = k + 1) as ->.
      { rewrite Hk'. apply log2_between; [lia |].
        rewrite !Z.pow_add_r by lia. nia. }
      assert (q' = 2 * q) as ->.
      { rewrite Hq', Hq. replace (k + 1 - 52) with (1 + (k - 52)) by lia.
        rewrite Z.pow_add_r by lia. lia. }
      replace (2 ^ 53 * q) with (2 ^ 52 * (2 * q)) by lia.
      apply Z.mod_mul. lia.
    - assert (k' = k) as ->.
      { rewrite Hk'. apply log2_between; [lia | nia]. }
      assert (q' = q) as -> by congruence.
      apply Z.mod_mul. lia. }
  destruct (decide (0 ≤ z)) as [Hz | Hz]; [by apply Hpos |].
  pose proof (Hpos (- z) ltac:(lia)) as H.
  rewrite !round53_opp in H. lia.
Qed.

(** Rounding moves a non-negative number up by at most one part in 2^53. *)
Lemma round53_error z : 0 ≤ z → 2 ^ 53 * round53 z ≤ (2 ^ 53 + 1) * z.
Proof.
  intros Hz. destruct (decide (z < 2 ^ 53)) as [Hs | Hs].
  { rewrite round53_exact; lia. }
  destruct (big_shape z ltac:(lia)) as (k & q & _ & _ & _ & Hqpos & _ & Hrange & ->).
  pose proof (rne_near z q Hqpos). nia.
Qed.

End Rounding.

(** ** 32-bit conversions *)

Section Int32.

Implicit Types x y : Z.

Lemma ToInt32_range x : - 2 ^ 31 ≤ ToInt32 x < 2 ^ 31.
Proof.
  unfold ToInt32.
  pose proof (Z.mod_pos_bound (x + 2 ^ 31) (2 ^ 32) ltac:(lia)). lia.
Qed.

Lemma ToInt32_wrap x k : ToInt32 (x + k * 2 ^ 32) = ToInt32 x.
Proof.
  unfold ToInt32. f_equal.
  replace (x + k * 2 ^ 32 + 2 ^ 31) with (x + 2 ^ 31 + k * 2 ^ 32) by lia.
  apply Z.mod_add. lia.
Qed.

Lemma ToInt32_repr x : ∃ k, ToInt32 x = x + k * 2 ^ 32.
Proof.
  exists (- ((x + 2 ^ 31) / 2 ^ 32)). unfold ToInt32.
  pose proof (Z.div_mod (x + 2 ^ 31) (2 ^ 32) ltac:(lia)). lia.
Qed.

Lemma ToInt32_id x : - 2 ^ 31 ≤ x < 2 ^ 31 → ToInt32 x = x.
Proof.
  intros Hx. unfold ToInt32. rewrite Z.mod_small; lia.
Qed.

Lemma ToInt32_ToUint32 x : ToInt32 (ToUint32 x) = ToInt32 x.
Proof.
  unfold ToInt32, ToUint32. f_equal.
  by rewrite Z.add_mod_idemp_l by lia.
Qed.

Lemma ToUint32_idem x : ToUint32 (ToUint32 x) = ToUint32 x.
Proof. unfold ToUint32. apply Z.mod_mod. lia. Qed.

Lemma ToUint32_range x : 0 ≤ ToUint32 x < 2 ^ 32.
Proof. unfold ToUint32. apply Z.mod_pos_bound. lia. Qed.

Lemma js_or_0 x : js_or x 0 = ToInt32 x.
Proof. unfold js_or. change (ToInt32 0) with 0. apply Z.lor_0_r. Qed.

End Int32.

(** ** Seed derivation *)

Section SeedDerivation.

(** One step of the hash is [acc * 31 + c] wrapped to signed 32 bits, and
    also [(acc << 5) - acc + c] with the shift and the sum both wrapped. *)
Lemma hashStep_spec h c :
  - 2 ^ 31 ≤ h < 2 ^ 31 → 0 ≤ c < 65536 →
  hashStep h c = ToInt32 (h * 31 + c) ∧
  hashStep h c = ToInt32 (ToInt32 (h * 2 ^ 5) - h + c).
Proof.
  intros Hh Hc. unfold hashStep, js_shl, num_add, num_sub.
  rewrite js_or_0, (ToInt32_id h) by done.
  change (5 mod 32) with 5. rewrite Z.shiftl_mul_pow2 by lia.
  pose proof (ToInt32_range (h * 2 ^ 5)) as Hs.
  rewrite (round53_exact (ToInt32 (h * 2 ^ 5) - h)) by lia.
  rewrite round53_exact by lia.
  split; [| done].
  destruct (ToInt32_repr (h * 2 ^ 5)) as [k ->].
  replace (h * 2 ^ 5 + k * 2 ^ 32 - h + c) with (h * 31 + c + k * 2 ^ 32) by lia.
  apply ToInt32_wrap.
Qed.

Lemma hashStep_range h c : - 2 ^ 31 ≤ hashStep h c < 2 ^ 31.
Proof. unfold hashStep. rewrite js_or_0. apply ToInt32_range. Qed.

Lemma fold_left_step {A B} (f : A → B → A) (x : B) (l : list B) (a : A) :
  fold_left f (x :: l) a = fold_left f l (f a x).
Proof. reflexivity. Qed.

Lemma fold_hashStep_range codes h :
  - 2 ^ 31 ≤ h < 2 ^ 31 → - 2 ^ 31 ≤ fold_left hashStep codes h < 2 ^ 31.
Proof.
  revert h. induction codes as [| c codes IH]; intros h Hh; [exact Hh |].
  rewrite fold_left_step. apply IH, hashStep_range.
Qed.

Lemma hashCodes_range codes : - 2 ^ 31 ≤ hashCodes codes < 2 ^ 31.
Proof. apply fold_hashStep_range. lia. Qed.

Lemma fold_hashStep_spec codes h :
  - 2 ^ 31 ≤ h < 2 ^ 31 → Forall (λ c, 0 ≤ c < 65536) codes →
  fold_left hashStep codes h = fold_left (λ acc c, ToInt32 (acc * 31 + c)) codes h ∧
  fold_left hashStep codes h
  = fold_left (λ acc c, ToInt32 (ToInt32 (acc * 2 ^ 5) - acc + c)) codes h.
Proof.
  intros Hh Hcodes. revert h Hh.
  induction Hcodes as [| c codes Hc _ IH]; intros h Hh; [done |].
  rewrite !fold_left_step.
  destruct (hashStep_spec h c Hh Hc) as [E1 E2].
  destruct (IH (hashStep h c) (hashStep_range h c)) as [IH1 IH2].
  split.
  - rewrite IH1. by rewrite E1.
  - rewrite IH2. by rewrite E2.
Qed.

Lemma charCodes_range seed : Forall (λ c, 0 ≤ c < 65536) (charCodes seed).
Proof.
  unfold charCodes. apply Forall_fmap, Forall_forall. intros c _. simpl.
  pose proof (Ascii.N_ascii_bounded c). lia.
Qed.

Lemma createSeededRandom_range seed :
  - 2 ^ 31 ≤ createSeededRandom seed < 2 ^ 31.
Proof. apply hashCodes_range. Qed.

(** C7: for every string, given by its code units, the seed derivation is
    the fold of [acc = ((acc << 5) - acc + charCode)] wrapped to a signed
    32-bit integer, starting from 0; it is a signed 32-bit integer, and it
    equals the fold of [acc = acc * 31 + charCode] wrapped to 32 bits. *)
Theorem seed_derivation_is_wrapped_fold (codes : list Z) :
  Forall (λ c, 0 ≤ c < 65536) codes →
  hashCodes codes
  = fold_left (λ acc c, ToInt32 (ToInt32 (acc * 2 ^ 5) - acc + c)) codes 0 ∧
  hashCodes codes = specHash codes ∧
  - 2 ^ 31 ≤ hashCodes codes < 2 ^ 31.
Proof.
  intros Hcodes.
  destruct (fold_hashStep_spec codes 0 ltac:(lia) Hcodes) as [E1 E2].
  split; [exact E2 |]. split; [exact E1 |]. apply hashCodes_range.
Qed.

Lemma seed_derivation_is_wrapped_fold_witness :
  Forall (λ c, 0 ≤ c < 65536) (charCodes "test") ∧
  hashCodes (charCodes "test") = specHash (charCodes "test") ∧
  specHash (charCodes "test") = 3556498.
Proof.
  assert (Forall (λ c, 0 ≤ c < 65536) (charCodes "test")) as Hcodes.
  { cbn. repeat (constructor; [lia |]). constructor. }
  split; [exact Hcodes |]. split.
  - exact (proj1 (proj2 (seed_derivation_is_wrapped_fold (charCodes "test") Hcodes))).
  - vm_compute. reflexivity.
Defined.

End SeedDerivation.

(** ** The generator *)

Section Generator.

Lemma mulberry32_mix_residue t : mulberry32_mix (ToUint32 t) = mulberry32_mix t.
Proof.
  unfold mulberry32_mix, js_xor, js_or, js_ushr.
  by rewrite ToInt32_ToUint32, ToUint32_idem.
Qed.

Lemma mulberry32_mix_range t : 0 ≤ mulberry32_mix t < 2 ^ 32.
Proof. unfold mulberry32_mix. apply ToUint32_range. Qed.

Lemma random_range h : 0 ≤ snd (random h) < 2 ^ 32.
Proof. apply mulberry32_mix_range. Qed.

(** While the sum stays below 2^53 the addition is exact and nothing wraps. *)
Lemma stateAfter_exact n s :
  - 2 ^ 31 ≤ s → s + Z.of_nat n * 0x6D2B79F5 < 2 ^ 53 →
  stateAfter n s = s + Z.of_nat n * 0x6D2B79F5.
Proof.
  revert s. induction n as [| n IH]; intros s Hlo Hhi; simpl stateAfter; [lia |].
  unfold random, num_add. simpl fst.
  rewrite round53_exact by lia.
  rewrite IH by lia. lia.
Qed.

Lemma iter_specStateStep n s :
  Nat.iter n specStateStep (ToUint32 s) = ToUint32 (s + Z.of_nat n * 0x6D2B79F5).
Proof.
  induction n as [| n IH].
  - simpl. f_equal. lia.
  - rewrite Nat.iter_succ, IH. unfold specStateStep, ToUint32.
    rewrite Z.add_mod_idemp_l by lia. f_equal. lia.
Qed.

(** C5, as the code has it: on each of the first 4194303 calls after
    seeding the stored state becomes [state + 0x6D2B79F5] with no reduction
    (after [k] calls it is the seed plus [k] times the increment); the value
    the call returns is the one mixed from the wrapping 32-bit state
    [(state + 0x6D2B79F5) mod 2^32] iterated from the seed. *)
Theorem random_state_not_reduced (seed : string) (n : nat) :
  Z.of_nat n < 4194303 →
  let h := createSeededRandom seed in
  stateAfter n h = h + Z.of_nat n * 0x6D2B79F5 ∧
  random (stateAfter n h)
  = (h + Z.of_nat (S n) * 0x6D2B79F5,
     mulberry32_mix (Nat.iter (S n) specStateStep (ToUint32 h))).
Proof.
  intros Hn h.
  pose proof (createSeededRandom_range seed) as Hh. fold h in Hh.
  assert (stateAfter n h = h + Z.of_nat n * 0x6D2B79F5) as Hs.
  { apply stateAfter_exact; lia. }
  split; [exact Hs |].
  rewrite Hs. unfold random, num_add.
  rewrite round53_exact by lia.
  rewrite iter_specStateStep, mulberry32_mix_residue.
  by replace (h + Z.of_nat (S n) * 0x6D2B79F5)
    with (h + Z.of_nat n * 0x6D2B79F5 + 0x6D2B79F5) by lia.
Qed.

Lemma random_state_not_reduced_witness :
  Z.of_nat 2 < 4194303 ∧
  random (stateAfter 2 (createSeededRandom ""))
  = (5494697439, mulberry32_mix (Nat.iter 3 specStateStep 0)).
Proof.
  split; [lia |].
  exact (proj2 (random_state_not_reduced "" 2 ltac:(lia))).
Defined.

(** The third call from the empty seed stores 5494697439, which is neither
    below 2^32 nor the wrapped sum 1199730143. *)
Lemma random_state_exceeds_32_bits :
  ¬ (∀ seed n,
       let s := stateAfter n (createSeededRandom seed) in
       fst (random s) = specStateStep s ∧ 0 ≤ fst (random s) < 2 ^ 32).
Proof.
  intros H. destruct (H "" 2%nat) as [E _].
  vm_compute in E. discriminate E.
Qed.

End Generator.

(** ** The weighted sampler *)

Section Sampler.

Implicit Types (p w : PlayerEntry) (rem ws : list PlayerEntry) (t c h u : Z).
Implicit Types (x y : number).

Arguments addTickets : simpl never.

Lemma overflow_bound_pos : 0 < 2 ^ 1024.
Proof. apply Z.pow_pos_nonneg; lia. Qed.

Lemma overflow_Num z T :
  overflow z = Num T ↔ T = round53 z ∧ Z.abs T < 2 ^ 1024.
Proof.
  unfold overflow. generalize (2 ^ 1024). intros B.
  destruct (Z.abs (round53 z) <? B) eqn:E.
  - apply Z.ltb_lt in E. split; [by intros [= <-] | by intros [-> _]].
  - apply Z.ltb_ge in E. split; [by destruct (0 <? _) | intros [-> H]; lia].
Qed.

(** A result that is not negative is delivered as itself or as Infinity. *)
Lemma overflow_nonneg z :
  0 ≤ z →
  overflow z = PosInf ∨ overflow z = Num (round53 z) ∧ round53 z < 2 ^ 1024.
Proof.
  intros Hz. pose proof (round53_nonneg _ Hz) as Hr.
  pose proof overflow_bound_pos as HB. revert HB.
  unfold overflow. generalize (2 ^ 1024). intros B HB.
  destruct (Z.abs (round53 z) <? B) eqn:E.
  - apply Z.ltb_lt in E. right. split; [done | lia].
  - apply Z.ltb_ge in E. left.
    destruct (0 <? round53 z) eqn:E'; [done |]. apply Z.ltb_ge in E'. lia.
Qed.

Lemma addTickets_Num c p T :
  addTickets (Num c) p = Num T ↔ T = round53 (c + tickets p) ∧ Z.abs T < 2 ^ 1024.
Proof. apply overflow_Num. Qed.

(** The infinities and NaN absorb every further weight. *)
Lemma addTickets_not_Num x p :
  ¬ isFinite x → ¬ isFinite (addTickets x p).
Proof.
  intros Hx [c Hc]. apply Hx. destruct x; [by eexists | done..].
Qed.

Lemma sum_not_Num rem x :
  ¬ isFinite x → ¬ isFinite (fold_left addTickets rem x).
Proof.
  revert x. induction rem as [| p rem IH]; intros x Hx; simpl; [done |].
  apply IH. by apply addTickets_not_Num.
Qed.

Lemma sum_PosInf rem : fold_left addTickets rem PosInf = PosInf.
Proof. induction rem as [| p rem IH]; simpl; done. Qed.

(** A finite sum has finite partial sums. *)
Lemma sum_cons_Num p rem x T :
  fold_left addTickets (p :: rem) x = Num T →
  ∃ c c', x = Num c ∧ c' = round53 (c + tickets p) ∧ Z.abs c' < 2 ^ 1024 ∧
          addTickets x p = Num c' ∧ fold_left addTickets rem (Num c') = Num T.
Proof.
  simpl. intros HT.
  destruct (addTickets x p) as [c' | | |] eqn:E;
    [| exfalso; eapply (sum_not_Num rem); [| by eexists]; intros [? ?]; done ..].
  destruct x as [c | | |]; [| done..].
  apply addTickets_Num in E as [-> Hc']. by exists c, (round53 (c + tickets p)).
Qed.

Lemma sum_take_Num rem x T k :
  fold_left addTickets rem x = Num T → isFinite (fold_left addTickets (take k rem) x).
Proof.
  revert x k. induction rem as [| p rem IH]; intros x k HT.
  { rewrite take_nil. by eexists. }
  destruct k as [| k].
  { destruct (sum_cons_Num _ _ _ _ HT) as (c & _ & -> & _). by eexists. }
  destruct (sum_cons_Num _ _ _ _ HT) as (c & c' & -> & _ & _ & E & HT').
  simpl. rewrite E. by eapply IH.
Qed.

Lemma sum_is_double rem c T :
  round53 c = c → fold_left addTickets rem (Num c) = Num T → round53 T = T.
Proof.
  revert c. induction rem as [| p rem IH]; intros c Hc HT.
  { simpl in HT. by injection HT as <-. }
  destruct (sum_cons_Num _ _ _ _ HT) as (c0 & c' & [= <-] & -> & _ & _ & HT').
  eapply IH; [| exact HT']. apply round53_idem.
Qed.

(** Non-negative weights: the sum does not decrease, and it is finite or
    Infinity. *)
Lemma sum_nonneg_cases rem c :
  0 ≤ c → round53 c = c → Forall (λ p, 0 ≤ tickets p) rem →
  fold_left addTickets rem (Num c) = PosInf ∨
  ∃ T, fold_left addTickets rem (Num c) = Num T ∧ c ≤ T.
Proof.
  intros Hc Hd Hrem. revert c Hc Hd.
  induction Hrem as [| p rem Hp _ IH]; intros c Hc Hd; cbn [fold_left];
    [right; eauto with lia |].
  assert (c ≤ round53 (c + tickets p)) as Hle.
  { rewrite <- Hd at 1. apply round53_mono; lia. }
  change (addTickets (Num c) p) with (overflow (c + tickets p)).
  destruct (overflow_nonneg (c + tickets p)) as [-> | [-> _]]; [lia | |].
  - left. apply sum_PosInf.
  - destruct (IH (round53 (c + tickets p))) as [-> | (T & -> & HT)];
      [lia | apply round53_idem | by left |].
    right. exists T. split; [done | lia].
Qed.

Lemma totalTickets_nonneg_cases rem :
  Forall (λ p, 0 ≤ tickets p) rem →
  totalTickets rem = PosInf ∨ ∃ T, totalTickets rem = Num T ∧ 0 ≤ T.
Proof. intros Hrem. by apply sum_nonneg_cases. Qed.

Lemma totalTickets_pos rem :
  rem ≠ [] → Forall (λ p, 0 < tickets p) rem →
  totalTickets rem = PosInf ∨ ∃ T, totalTickets rem = Num T ∧ 0 < T.
Proof.
  intros Hne Hrem. destruct Hrem as [| p rem Hp Hrem]; [done |].
  unfold totalTickets. cbn [fold_left].
  assert (1 ≤ round53 (0 + tickets p)) as Hle.
  { change 1 with (round53 1) at 1. apply round53_mono; lia. }
  change (addTickets (Num 0) p) with (overflow (0 + tickets p)).
  destruct (overflow_nonneg (0 + tickets p)) as [-> | [-> _]]; [lia | |].
  - left. apply sum_PosInf.
  - destruct (sum_nonneg_cases rem (round53 (0 + tickets p))) as [-> | (T & -> & HT)];
      [lia | apply round53_idem | | by left |].
    + eapply Forall_impl; [exact Hrem |]. simpl. lia.
    + right. exists T. split; [done | lia].
Qed.

(** With non-negative weights, a part of a pool with a finite total has a
    finite total, which is not larger. *)
Lemma sum_sublist l1 l2 c1 c2 T2 :
  l1 `sublist_of` l2 → Forall (λ p, 0 ≤ tickets p) l2 →
  0 ≤ c1 ≤ c2 → round53 c2 = c2 →
  fold_left addTickets l2 (Num c2) = Num T2 →
  ∃ T1, fold_left addTickets l1 (Num c1) = Num T1 ∧ T1 ≤ T2.
Proof.
  intros Hsub. revert c1 c2.
  induction Hsub as [| p l1 l2 Hsub IH | p l1 l2 Hsub IH]; intros c1 c2 Hnn Hc Hd HT.
  - simpl in HT. injection HT as <-. exists c1. split; [done | lia].
  - apply Forall_cons in Hnn as [Hp Hnn].
    destruct (sum_cons_Num _ _ _ _ HT) as (c0 & c' & [= <-] & -> & Hfin & _ & HT').
    assert (0 ≤ round53 (c1 + tickets p)) by (apply round53_nonneg; lia).
    assert (round53 (c1 + tickets p) ≤ round53 (c2 + tickets p))
      by (apply round53_mono; lia).
    destruct (IH (round53 (c1 + tickets p)) (round53 (c2 + tickets p)))
      as (T1 & HT1 & Hle); [done | lia | apply round53_idem | done |].
    exists T1. split; [| done]. simpl.
    replace (addTickets (Num c1) p) with (Num (round53 (c1 + tickets p))); [done |].
    symmetry. apply addTickets_Num. split; [done | lia].
  - apply Forall_cons in Hnn as [Hp Hnn].
    destruct (sum_cons_Num _ _ _ _ HT) as (c0 & c' & [= <-] & -> & Hfin & _ & HT').
    assert (c2 ≤ round53 (c2 + tickets p)).
    { rewrite <- Hd at 1. apply round53_mono; lia. }
    apply (IH c1 (round53 (c2 + tickets p))); [done | lia | apply round53_idem | done].
Qed.

Lemma totalTickets_sublist l1 l2 :
  l1 `sublist_of` l2 → Forall (λ p, 0 ≤ tickets p) l2 →
  isFinite (totalTickets l2) → isFinite (totalTickets l1).
Proof.
  intros Hsub Hnn [T2 HT2].
  destruct (sum_sublist l1 l2 0 0 T2 Hsub Hnn) as (T1 & HT1 & _); [lia | done | done |].
  by exists T1.
Qed.

Lemma cumulativeTo_S rem k w :
  rem !! k = Some w →
  cumulativeTo rem (S k) = addTickets (cumulativeTo rem k) w.
Proof.
  intros Hk. unfold cumulativeTo, totalTickets.
  rewrite (take_S_r _ _ _ Hk), fold_left_app. done.
Qed.

Lemma cumulativeTo_all rem : cumulativeTo rem (length rem) = totalTickets rem.
Proof. unfold cumulativeTo. by rewrite firstn_all. Qed.

Lemma cumulativeTo_is_double rem k T :
  cumulativeTo rem k = Num T → round53 T = T.
Proof. apply sum_is_double. done. Qed.

(** The ticket is an integer of [[0, totalTickets)], also after the
    rounding of the product. *)
Lemma floorMul_range u total :
  0 ≤ u < 2 ^ 32 → 0 < total →
  ∃ t, floorMul u (Num total) = Num t ∧ 0 ≤ t < total.
Proof.
  intros Hu Ht. exists (round53 (u * total) / 2 ^ 32). split; [done |].
  assert (0 ≤ u * total) as Hprod by nia.
  pose proof (round53_nonneg _ Hprod) as Hnn.
  pose proof (round53_error _ Hprod) as Herr.
  split.
  - apply Z.div_pos; lia.
  - apply Z.div_lt_upper_bound; [lia |].
    assert (u * total ≤ (2 ^ 32 - 1) * total) by nia.
    lia.
Qed.

(** Over an infinite or NaN total the ticket compares below nothing. *)
Lemma floorMul_unordered u x y :
  0 ≤ u → x = PosInf ∨ x = NaN → js_lt (floorMul u x) y = false.
Proof.
  intros Hu [-> | ->]; simpl; [| done].
  case_decide; by destruct y.
Qed.

(** The scan, entered below the ticket, stops at the first participant whose
    cumulative weight exceeds the ticket. *)
Lemma scanFrom_spec rem t c j T :
  fold_left addTickets rem (Num c) = Num T → c ≤ t → t < T →
  ∃ i w, scanFrom rem (Num t) (Num c) j = Some (j + i)%nat ∧ rem !! i = Some w ∧
         (∃ lo, fold_left addTickets (take i rem) (Num c) = Num lo ∧ lo ≤ t) ∧
         (∃ hi, fold_left addTickets (take (S i) rem) (Num c) = Num hi ∧ t < hi) ∧
         ∀ i', (i' < i)%nat →
               ∃ m, fold_left addTickets (take (S i') rem) (Num c) = Num m ∧ m ≤ t.
Proof.
  revert c j. induction rem as [| p rem IH]; intros c j HT Hc Ht.
  { simpl in HT. injection HT as <-. lia. }
  destruct (sum_cons_Num _ _ _ _ HT) as (c0 & c' & [= <-] & Hc' & Hfin & E & HT').
  simpl scanFrom. rewrite E. simpl js_lt.
  destruct (t <? c') eqn:Hlt.
  - apply Z.ltb_lt in Hlt. exists 0%nat, p.
    rewrite Nat.add_0_r. split; [done |]. split; [done |].
    split; [exists c; done |]. split; [| lia].
    exists c'. simpl. rewrite E. done.
  - apply Z.ltb_ge in Hlt.
    destruct (IH c' (S j) HT' Hlt Ht) as (i & w & Hs & Hw & Hlo & Hhi & Hbefore).
    exists (S i), w. rewrite Hs. split; [f_equal; lia |]. split; [done |].
    simpl. rewrite E. split; [done |]. split; [done |].
    intros [| i'] Hi'; [by exists c' |]. apply Hbefore. lia.
Qed.

(** A ticket that compares below nothing selects nobody. *)
Lemma scanFrom_unordered rem x y j :
  (∀ y', js_lt x y' = false) → scanFrom rem x y j = None.
Proof.
  intros Hx. revert y j. induction rem as [| p rem IH]; intros y j; simpl; [done |].
  by rewrite Hx.
Qed.

Lemma scanFrom_Some rem x y j k :
  scanFrom rem x y j = Some k → (j ≤ k)%nat ∧ is_Some (rem !! (k - j)%nat).
Proof.
  revert y j. induction rem as [| p rem IH]; intros y j; simpl; [done |].
  case_match.
  - intros [= <-]. rewrite Nat.sub_diag. eauto.
  - intros Hk. destruct (IH _ _ Hk) as [Hle Hsome]. split; [lia |].
    replace (k - j)%nat with (S (k - S j)) by lia. done.
Qed.

Lemma findWinner_Some rem x j : findWinner rem x = Some j → is_Some (rem !! j).
Proof.
  intros Hj. destruct (scanFrom_Some _ _ _ _ _ Hj) as [_ H].
  by rewrite Nat.sub_0_r in H.
Qed.

(** One draw with a finite, positive total weight selects a participant. *)
Lemma draw_selects rem h T :
  totalTickets rem = Num T → 0 < T →
  ∃ t, floorMul (snd (random h)) (totalTickets rem) = Num t ∧ 0 ≤ t < T ∧
  ∃ j w, findWinner rem (Num t) = Some j ∧ rem !! j = Some w ∧
         (∃ lo, cumulativeTo rem j = Num lo ∧ lo ≤ t) ∧
         (∃ hi, cumulativeTo rem (S j) = Num hi ∧ t < hi) ∧
         ∀ i, (i < j)%nat → ∃ m, cumulativeTo rem (S i) = Num m ∧ m ≤ t.
Proof.
  intros HT Htotal. rewrite HT.
  destruct (floorMul_range _ _ (random_range h) Htotal) as (t & -> & Hrange).
  exists t. split; [done |]. split; [done |].
  destruct (scanFrom_spec rem t 0 0 T HT) as (i & w & Hs & Hw & Hlo & Hhi & Hbefore);
    [lia | lia |].
  exists i, w. done.
Qed.

(** The loop body, once unfolded. *)
Lemma drawLoop_S togo h ws rem :
  drawLoop (S togo) h ws rem =
  if decide (rem = [] ∨ totalTickets rem = Num 0) then (h, ws, rem)
  else
    match findWinner rem (floorMul (snd (random h)) (totalTickets rem)) with
    | Some j =>
        match rem !! j with
        | Some w => drawLoop togo (fst (random h)) (ws ++ [w]) (delete j rem)
        | None => drawLoop togo (fst (random h)) ws rem
        end
    | None => drawLoop togo (fst (random h)) ws rem
    end.
Proof.
  simpl. destruct rem as [| p rem].
  - rewrite decide_True; [done | by left].
  - destruct (decide (totalTickets (p :: rem) = Num 0)) as [E | E].
    + rewrite decide_True; [done | by right].
    + rewrite decide_False; [| intros [? | ?]; done].
      destruct (random h) as [h' u]. done.
Qed.

(** Winners are appended, and every winner leaves [remaining]. *)
Lemma drawLoop_partition togo h ws rem h' ws' rem' :
  drawLoop togo h ws rem = (h', ws', rem') →
  ∃ new, ws' = ws ++ new ∧ rem ≡ₚ new ++ rem'.
Proof.
  revert h ws rem. induction togo as [| togo IH]; intros h ws rem.
  { simpl. intros [= <- <- <-]. exists []. by rewrite app_nil_r. }
  rewrite drawLoop_S. case_decide.
  { intros [= <- <- <-]. exists []. by rewrite app_nil_r. }
  destruct (findWinner _ _) as [j |]; [| apply IH].
  destruct (rem !! j) as [w |] eqn:Hw; [| apply IH].
  intros Hrun. destruct (IH _ _ _ Hrun) as (new & -> & Hperm).
  exists (w :: new). split; [by rewrite <- app_assoc |].
  rewrite (delete_Permutation _ _ _ Hw). simpl. by f_equiv.
Qed.

(** With positive weights only and a finite total, every iteration awards a
    winner. *)
Lemma drawLoop_length togo h ws rem h' ws' rem' :
  Forall (λ p, 0 < tickets p) rem → isFinite (totalTickets rem) →
  drawLoop togo h ws rem = (h', ws', rem') →
  length ws' = (length ws + togo `min` length rem)%nat.
Proof.
  revert h ws rem. induction togo as [| togo IH]; intros h ws rem Hpos Hfin.
  { simpl. intros [= <- <- <-]. lia. }
  assert (Forall (λ p, 0 ≤ tickets p) rem) as Hnn.
  { eapply Forall_impl; [exact Hpos |]. simpl. lia. }
  rewrite drawLoop_S. case_decide as Hstop.
  { intros [= <- <- <-]. destruct Hstop as [-> | Hzero]; [simpl; lia |].
    destruct (decide (rem = [])) as [-> | Hne]; [simpl; lia |].
    destruct (totalTickets_pos rem Hne Hpos) as [E | (T & E & HT)];
      rewrite E in Hzero; [done |]. injection Hzero as ->. lia. }
  assert (rem ≠ []) as Hne by tauto.
  destruct (totalTickets_pos rem Hne Hpos) as [E | (T & E & HT)].
  { destruct Hfin as [T E']. by rewrite E in E'. }
  destruct (draw_selects rem h T E HT) as (t & -> & _ & j & w & -> & Hw & _).
  rewrite Hw. intros Hrun.
  rewrite (IH _ _ _ (Forall_delete _ _ _ Hpos)
              (totalTickets_sublist _ _ (sublist_delete _ _) Hnn Hfin) Hrun).
  rewrite length_app, length_delete by eauto. simpl length.
  pose proof (lookup_lt_Some _ _ _ Hw). lia.
Qed.

(** With non-negative weights, every winner has a positive weight. *)
Lemma drawLoop_winners_positive togo h ws rem h' ws' rem' :
  Forall (λ p, 0 ≤ tickets p) rem →
  Forall (λ p, 0 < tickets p) ws →
  drawLoop togo h ws rem = (h', ws', rem') →
  Forall (λ p, 0 < tickets p) ws'.
Proof.
  revert h ws rem. induction togo as [| togo IH]; intros h ws rem Hnn Hws.
  { simpl. by intros [= <- <- <-]. }
  rewrite drawLoop_S. case_decide as Hstop.
  { by intros [= <- <- <-]. }
  destruct (totalTickets_nonneg_cases rem Hnn) as [E | (T & E & HT)].
  { unfold findWinner. rewrite scanFrom_unordered; [by apply IH |].
    intros y. apply floorMul_unordered; [apply random_range | by left]. }
  assert (0 < T) as Htotal.
  { destruct (decide (T = 0)) as [-> | ?]; [tauto | lia]. }
  destruct (draw_selects rem h T E Htotal)
    as (t & -> & _ & j & w & -> & Hw & (lo & Hlo & Hlot) & (hi & Hhi & Hthi) & _).
  rewrite Hw. apply IH; [by apply Forall_delete |].
  apply Forall_app. split; [done |]. apply Forall_singleton.
  rewrite (cumulativeTo_S _ _ _ Hw), Hlo in Hhi.
  apply addTickets_Num in Hhi as [Hhi _].
  pose proof (Forall_lookup_1 _ _ _ _ Hnn Hw) as Hw0. simpl in Hw0.
  destruct (decide (tickets w = 0)) as [E0 | E0]; [| lia].
  rewrite E0, Z.add_0_r, (cumulativeTo_is_double _ _ _ Hlo) in Hhi. lia.
Qed.




End Sampler.

(** ** The tier loop *)

Section Filters.

Context {A : Type} (P : A → Prop) `{∀ x, Decision (P x)}.

Lemma filter_all (l : list A) : Forall P l → filter P l = l.
Proof.
  induction 1 as [| x l Hx _ IH]; [done |].
  rewrite filter_cons_True by done. by f_equal.
Qed.

Lemma filter_none (l : list A) : Forall (λ x, ¬ P x) l → filter P l = [].
Proof.
  induction 1 as [| x l Hx _ IH]; [done |].
  by rewrite filter_cons_False.
Qed.

End Filters.

Section Tiers.

Implicit Types (t : PrizeTier) (st : DrawState) (p w : PlayerEntry).
Implicit Types (ws elig players : list PlayerEntry).
Implicit Types (results : gmap string TierResult) (a : string).

Lemma weightedRandomDraw_drawLoop players count h :
  ∃ rem', drawLoop count h [] players
          = (fst (weightedRandomDraw players count h),
             snd (weightedRandomDraw players count h), rem').
Proof.
  unfold weightedRandomDraw.
  destruct (drawLoop count h [] players) as [[h' ws] rem']. eauto.
Qed.

Lemma weightedRandomDraw_partition players count h :
  ∃ rem', players ≡ₚ snd (weightedRandomDraw players count h) ++ rem'.
Proof.
  destruct (weightedRandomDraw_drawLoop players count h) as [rem' Hrun].
  destruct (drawLoop_partition _ _ _ _ _ _ _ Hrun) as (new & Hnew & Hperm).
  exists rem'. by rewrite Hnew.
Qed.

Lemma weightedRandomDraw_length players count h :
  Forall (λ p, 0 < tickets p) players → isFinite (totalTickets players) →
  length (snd (weightedRandomDraw players count h)) = (count `min` length players)%nat.
Proof.
  intros Hpos Hfin.
  destruct (weightedRandomDraw_drawLoop players count h) as [rem' Hrun].
  by rewrite (drawLoop_length _ _ _ _ _ _ _ Hpos Hfin Hrun).
Qed.

Lemma weightedRandomDraw_positive players count h :
  Forall (λ p, 0 ≤ tickets p) players →
  Forall (λ p, 0 < tickets p) (snd (weightedRandomDraw players count h)).
Proof.
  intros Hnn. destruct (weightedRandomDraw_drawLoop players count h) as [rem' Hrun].
  by eapply drawLoop_winners_positive.
Qed.

Lemma weightedRandomDraw_subset players count h w :
  w ∈ snd (weightedRandomDraw players count h) → w ∈ players.
Proof.
  destruct (weightedRandomDraw_partition players count h) as [rem' Hperm].
  intros Hw. rewrite Hperm. apply elem_of_app. by left.
Qed.

(** The inner loop filters every winner's address out of the pool ... *)
Lemma recordWinners_eligible t ws results elig :
  snd (recordWinners t ws results elig)
  = filter (λ p, address p ∉ address <$> ws) elig.
Proof.
  revert results elig.
  induction ws as [| w ws IH]; intros results elig; cbn [recordWinners snd].
  - symmetry. apply filter_all, Forall_forall. intros p _. apply not_elem_of_nil.
  - rewrite IH, list_filter_filter, fmap_cons. apply list_filter_iff.
    intros p. rewrite not_elem_of_cons. tauto.
Qed.

(** ... and records the tier for exactly the winners' addresses. *)
Lemma recordWinners_lookup t ws results elig a :
  fst (recordWinners t ws results elig) !! a
  = if decide (a ∈ address <$> ws)
    then Some (mkTierResult (name t) (initPerWinner t))
    else results !! a.
Proof.
  revert results elig.
  induction ws as [| w ws IH]; intros results elig; cbn [recordWinners fst].
  - rewrite decide_False; [done | apply not_elem_of_nil].
  - rewrite IH, fmap_cons. destruct (decide (a ∈ address <$> ws)) as [Hin | Hnin].
    + rewrite decide_True; [done | by right].
    + destruct (decide (a = address w)) as [-> | Hne].
      * rewrite decide_True by left. apply lookup_insert_eq.
      * rewrite decide_False by (rewrite not_elem_of_cons; tauto).
        by apply lookup_insert_ne.
Qed.

Lemma tierStep_eq st t :
  tierStep st t =
  let ws := snd (weightedRandomDraw (ds_eligible st) (winners t) (ds_hashValue st)) in
  mkDrawState
    (fst (weightedRandomDraw (ds_eligible st) (winners t) (ds_hashValue st)))
    (fst (recordWinners t ws (ds_results st) (ds_eligible st)))
    (filter (λ p, address p ∉ address <$> ws) (ds_eligible st))
    (ds_drawn st ++ [ws]).
Proof.
  unfold tierStep.
  destruct (weightedRandomDraw _ _ _) as [h ws]. simpl.
  rewrite <- recordWinners_eligible with (t := t) (results := ds_results st).
  by destruct (recordWinners _ _ _ _).
Qed.

(** With distinct addresses the filtered pool is what the sampler left. *)
Lemma filter_winners_out elig ws rem' :
  elig ≡ₚ ws ++ rem' → NoDup (address <$> elig) →
  filter (λ p, address p ∉ address <$> ws) elig ≡ₚ rem'.
Proof.
  intros Hperm Hnd. rewrite Hperm in Hnd |- *.
  rewrite fmap_app in Hnd. apply NoDup_app in Hnd as (_ & Hdisj & _).
  rewrite filter_app.
  rewrite filter_none, filter_all; [done | |].
  - apply Forall_forall. intros p Hp Hin. apply (Hdisj _ Hin).
    by apply list_elem_of_fmap_2.
  - apply Forall_forall. intros w Hw Hnin. apply Hnin.
    by apply list_elem_of_fmap_2.
Qed.

Lemma tierStep_keeps_multiset st t :
  NoDup (address <$> ds_eligible st) →
  concat (ds_drawn (tierStep st t)) ++ ds_eligible (tierStep st t)
  ≡ₚ concat (ds_drawn st) ++ ds_eligible st.
Proof.
  intros Hnd. rewrite tierStep_eq. cbn [ds_drawn ds_eligible].
  destruct (weightedRandomDraw_partition (ds_eligible st) (winners t) (ds_hashValue st))
    as [rem' Hperm].
  set (ws := snd (weightedRandomDraw _ _ _)) in *. clearbody ws.
  rewrite (filter_winners_out _ _ _ Hperm Hnd).
  rewrite concat_app. simpl. rewrite app_nil_r, <- app_assoc.
  by rewrite Hperm.
Qed.

Lemma tierStep_eligible_sublist st t :
  ds_eligible (tierStep st t) `sublist_of` ds_eligible st.
Proof. rewrite tierStep_eq. apply sublist_filter. Qed.

Lemma tierStep_eligible_Forall (Q : PlayerEntry → Prop) st t :
  Forall Q (ds_eligible st) → Forall Q (ds_eligible (tierStep st t)).
Proof.
  rewrite tierStep_eq. cbn [ds_eligible]. rewrite !Forall_forall.
  intros Hq p Hp. apply list_elem_of_filter in Hp as [_ Hp]. by apply Hq.
Qed.

Lemma sublist_addresses_NoDup elig elig' :
  elig' `sublist_of` elig → NoDup (address <$> elig) → NoDup (address <$> elig').
Proof.
  intros Hsub Hnd. apply (sublist_NoDup _ (address <$> elig)); [done |].
  by apply fmap_sublist.
Qed.

(** Distinct addresses stay distinct over the drawn winners and the pool. *)
Lemma tierLoop_NoDup tiers st :
  NoDup (address <$> (concat (ds_drawn st) ++ ds_eligible st)) →
  NoDup (address <$> (concat (ds_drawn (tierLoop tiers st))
                      ++ ds_eligible (tierLoop tiers st))).
Proof.
  revert st. induction tiers as [| t tiers IH]; intros st Hnd; [done |].
  apply IH. rewrite tierStep_keeps_multiset; [done |].
  rewrite fmap_app in Hnd. by apply NoDup_app in Hnd as (_ & _ & ?).
Qed.

(** The map holds exactly the addresses of the drawn winners. *)
Lemma tierLoop_results_dom tiers st :
  (∀ a, is_Some (ds_results st !! a) ↔ a ∈ address <$> concat (ds_drawn st)) →
  ∀ a, is_Some (ds_results (tierLoop tiers st) !! a)
       ↔ a ∈ address <$> concat (ds_drawn (tierLoop tiers st)).
Proof.
  revert st. induction tiers as [| t tiers IH]; intros st Hdom; [done |].
  apply IH. intros a. rewrite tierStep_eq. cbn [ds_results ds_drawn].
  rewrite recordWinners_lookup, concat_app, fmap_app, elem_of_app.
  simpl concat. rewrite app_nil_r, <- Hdom.
  case_decide; [| tauto]. split; [tauto | eauto].
Qed.

(** Every entry of the map was written for one of the tiers. *)
Lemma tierLoop_results_tier (Q : TierResult → Prop) tiers st :
  (∀ t, t ∈ tiers → Q (mkTierResult (name t) (initPerWinner t))) →
  map_Forall (λ _ r, Q r) (ds_results st) →
  map_Forall (λ _ r, Q r) (ds_results (tierLoop tiers st)).
Proof.
  revert st. induction tiers as [| t tiers IH]; intros st Hq Hst; [done |].
  apply IH; [intros t' Ht'; apply Hq; by right |].
  intros a r. rewrite tierStep_eq. cbn [ds_results].
  rewrite recordWinners_lookup. case_decide.
  - intros [= <-]. apply Hq. by left.
  - apply Hst.
Qed.

(** Winners only come from the pool. *)
Lemma tierLoop_drawn_from (Q : PlayerEntry → Prop) tiers st :
  Forall Q (ds_eligible st) → Forall (Forall Q) (ds_drawn st) →
  Forall (Forall Q) (ds_drawn (tierLoop tiers st)).
Proof.
  revert st. induction tiers as [| t tiers IH]; intros st Helig Hdrawn; [done |].
  apply IH.
  - by apply tierStep_eligible_Forall.
  - rewrite tierStep_eq. cbn [ds_drawn].
    apply Forall_app. split; [done |]. apply Forall_singleton.
    apply Forall_forall. intros w Hw.
    apply weightedRandomDraw_subset in Hw.
    by eapply Forall_forall in Helig.
Qed.

Lemma tierStep_eligible_finite st t :
  Forall (λ p, 0 < tickets p) (ds_eligible st) →
  isFinite (totalTickets (ds_eligible st)) →
  isFinite (totalTickets (ds_eligible (tierStep st t))).
Proof.
  intros Hpos. apply totalTickets_sublist; [apply tierStep_eligible_sublist |].
  eapply Forall_impl; [exact Hpos |]. simpl. lia.
Qed.

Lemma filledInOrder_step st t :
  NoDup (address <$> ds_eligible st) →
  Forall (λ p, 0 < tickets p) (ds_eligible st) →
  isFinite (totalTickets (ds_eligible st)) →
  ∃ ws, ds_drawn (tierStep st t) = ds_drawn st ++ [ws] ∧
        length ws = (winners t `min` length (ds_eligible st))%nat ∧
        length (ds_eligible (tierStep st t))
        = (length (ds_eligible st) - winners t)%nat.
Proof.
  intros Hnd Hpos Hfin. rewrite tierStep_eq. cbn [ds_drawn ds_eligible].
  pose proof (weightedRandomDraw_length _ (winners t) (ds_hashValue st) Hpos Hfin) as Hlen.
  destruct (weightedRandomDraw_partition (ds_eligible st) (winners t) (ds_hashValue st))
    as [rem' Hperm].
  set (ws := snd (weightedRandomDraw _ _ _)) in *. clearbody ws.
  exists ws. split; [done |]. split; [done |].
  rewrite (filter_winners_out _ _ _ Hperm Hnd).
  apply Permutation_length in Hperm. rewrite length_app in Hperm. lia.
Qed.

(** With distinct addresses and a finite total weight, each tier takes what
    it asks for or what is left of the pool. *)
Lemma tierLoop_filledInOrder tiers st :
  NoDup (address <$> ds_eligible st) →
  Forall (λ p, 0 < tickets p) (ds_eligible st) →
  isFinite (totalTickets (ds_eligible st)) →
  length <$> ds_drawn (tierLoop tiers st)
  = (length <$> ds_drawn st)
    ++ filledInOrder (length (ds_eligible st)) (winners <$> tiers).
Proof.
  revert st. induction tiers as [| t tiers IH]; intros st Hnd Hpos Hfin.
  { simpl. by rewrite app_nil_r. }
  destruct (filledInOrder_step st t Hnd Hpos Hfin) as (ws & Hdrawn & Hlen & Helig).
  cbn [tierLoop fold_left]. fold (tierLoop tiers (tierStep st t)).
  rewrite IH.
  - rewrite Hdrawn, Helig, fmap_app, <- app_assoc. simpl. by rewrite Hlen.
  - eapply sublist_addresses_NoDup; [apply tierStep_eligible_sublist | done].
  - by apply tierStep_eligible_Forall.
  - by apply tierStep_eligible_finite.
Qed.

(** The [winners] array of a tier is in the history from then on. *)
Lemma tierLoop_drawn_prefix tiers st :
  ds_drawn st `prefix_of` ds_drawn (tierLoop tiers st).
Proof.
  revert st. induction tiers as [| t tiers IH]; intros st; [done |].
  cbn [tierLoop fold_left]. fold (tierLoop tiers (tierStep st t)).
  etrans; [| apply IH]. rewrite tierStep_eq. cbn [ds_drawn].
  by apply prefix_app_r.
Qed.

End Tiers.

(** ** The draw *)

Section Draw.

Implicit Types (tiers : list PrizeTier) (players : list PlayerEntry) (seed : string).

Lemma elem_of_concat_lookup {A} (ls : list (list A)) i l x :
  ls !! i = Some l → x ∈ l → x ∈ concat ls.
Proof.
  revert i. induction ls as [| l' ls IH]; intros [| i] Hi Hx; simplify_eq/=.
  - apply elem_of_app. by left.
  - apply elem_of_app. right. by eapply IH.
Qed.

Lemma NoDup_concat_lookup {A B} (f : A → B) (ls : list (list A)) i j li lj b :
  NoDup (f <$> concat ls) →
  ls !! i = Some li → ls !! j = Some lj → b ∈ f <$> li → b ∈ f <$> lj → i = j.
Proof.
  revert i j. induction ls as [| l ls IH]; intros i j Hnd Hi Hj Hbi Hbj; [done |].
  simpl in Hnd. rewrite fmap_app in Hnd. apply NoDup_app in Hnd as (_ & Hdisj & Hnd).
  assert (∀ k lk, ls !! k = Some lk → b ∈ f <$> lk → b ∈ f <$> concat ls) as Hin.
  { intros k lk Hk Hb. apply list_elem_of_fmap in Hb as (x & -> & Hx).
    apply list_elem_of_fmap_2. by eapply elem_of_concat_lookup. }
  destruct i as [| i], j as [| j]; simplify_eq/=; [done | | | f_equal; eauto].
  - exfalso. eapply Hdisj; eauto.
  - exfalso. eapply Hdisj; eauto.
Qed.

Lemma filledInOrder_zero counts i b : filledInOrder 0 counts !! i = Some b → b = 0%nat.
Proof.
  revert i. induction counts as [| c counts IH]; intros [| i] Hi; simplify_eq/=.
  - lia.
  - by eapply IH.
Qed.

Lemma filledInOrder_sum eligible counts :
  sum_list (filledInOrder eligible counts) = (eligible `min` sum_list counts)%nat.
Proof.
  revert eligible. induction counts as [| c counts IH]; intros eligible; simpl; [lia |].
  rewrite IH. lia.
Qed.

Lemma filledInOrder_le eligible counts i c a :
  counts !! i = Some c → filledInOrder eligible counts !! i = Some a → (a ≤ c)%nat.
Proof.
  revert eligible i. induction counts as [| c' counts IH]; intros eligible [| i] Hc Ha;
    simplify_eq/=; [lia | by eapply IH].
Qed.

Lemma filledInOrder_short_then_empty eligible counts i j c a b :
  (i < j)%nat → counts !! i = Some c → filledInOrder eligible counts !! i = Some a →
  (a < c)%nat → filledInOrder eligible counts !! j = Some b → b = 0%nat.
Proof.
  revert eligible i j. induction counts as [| c' counts IH];
    intros eligible [| i] [| j] Hij Hc Ha Hshort Hb; simplify_eq/=; try lia.
  - replace (eligible - c)%nat with 0%nat in Hb by lia.
    by eapply filledInOrder_zero.
  - eapply (IH _ i j); eauto with lia.
Qed.

Lemma eligible_NoDup players :
  NoDup (address <$> players) →
  NoDup (address <$> filter (λ p, 0 < tickets p) players).
Proof. apply sublist_addresses_NoDup, sublist_filter. Qed.

Lemma eligible_positive players :
  Forall (λ p, 0 < tickets p) (filter (λ p, 0 < tickets p) players).
Proof. apply Forall_forall. intros p Hp. by apply list_elem_of_filter in Hp as [? _]. Qed.

(** C2: with pairwise distinct addresses, no address is drawn twice, in
    one tier or in two; the addresses of the returned map are those of the
    drawn winners. *)
Theorem no_double_win tiers players seed :
  NoDup (address <$> players) →
  NoDup (address <$> concat (tierWinners tiers players seed)) ∧
  (∀ i j wi wj a,
     tierWinners tiers players seed !! i = Some wi →
     tierWinners tiers players seed !! j = Some wj →
     a ∈ address <$> wi → a ∈ address <$> wj → i = j) ∧
  (∀ a, is_Some (conductDrawWith tiers players seed !! a)
        ↔ a ∈ address <$> concat (tierWinners tiers players seed)).
Proof.
  intros Hnd.
  assert (NoDup (address <$> concat (tierWinners tiers players seed))) as Hdrawn.
  { unfold tierWinners, conductDrawState.
    assert (NoDup (address <$> filter (λ p, 0 < tickets p) players)) as Helig
      by (by apply eligible_NoDup).
    pose proof (tierLoop_NoDup tiers
      (mkDrawState (createSeededRandom seed) ∅ (filter (λ p, 0 < tickets p) players) [])
      Helig) as Hinv.
    rewrite fmap_app in Hinv. by apply NoDup_app in Hinv as (? & _ & _). }
  split; [done |]. split.
  - intros i j wi wj a. by apply NoDup_concat_lookup.
  - apply tierLoop_results_dom. intros a. simpl.
    rewrite lookup_empty, elem_of_nil. split; [by intros [? ?] | done].
Qed.

Lemma no_double_win_witness :
  NoDup (address <$> examplePlayers) ∧
  NoDup (address <$> concat (tierWinners PRIZE_TIERS examplePlayers "test")).
Proof.
  assert (NoDup (address <$> examplePlayers)) as Hnd.
  { apply (bool_decide_unpack _). by vm_compute. }
  split; [exact Hnd |].
  exact (proj1 (no_double_win PRIZE_TIERS examplePlayers "test" Hnd)).
Defined.

(** C4: a participant with weight 0 is never among the winners of the
    sampler on a pool of non-negative weights, and never among the winners
    of any tier of the draw. *)
Theorem zero_weight_never_wins :
  (∀ pool count h p,
     Forall (λ q, 0 ≤ tickets q) pool → tickets p = 0 →
     p ∉ snd (weightedRandomDraw pool count h)) ∧
  (∀ tiers players seed ws p,
     ws ∈ tierWinners tiers players seed → tickets p = 0 → p ∉ ws).
Proof.
  split.
  - intros pool count h p Hnn Hp Hin.
    pose proof (weightedRandomDraw_positive pool count h Hnn) as Hpos.
    eapply Forall_forall in Hpos; [| exact Hin]. simpl in Hpos. lia.
  - intros tiers players seed ws p Hws Hp Hin.
    pose proof (tierLoop_drawn_from (λ q, 0 < tickets q) tiers
      (mkDrawState (createSeededRandom seed) ∅ (filter (λ p, 0 < tickets p) players) [])
      (eligible_positive players) (Forall_nil_2 _)) as Hall.
    eapply Forall_forall in Hall; [| exact Hws].
    eapply Forall_forall in Hall; [| exact Hin]. simpl in Hall. lia.
Qed.

Lemma zero_weight_never_wins_witness :
  Forall (λ q, 0 ≤ tickets q) examplePlayers ∧
  mkPlayer "C" 0 0 ∉ snd (weightedRandomDraw examplePlayers 3 (createSeededRandom "test")).
Proof.
  assert (Forall (λ q, 0 ≤ tickets q) examplePlayers) as Hnn.
  { repeat (constructor; [simpl; lia |]). constructor. }
  split; [exact Hnn |].
  exact (proj1 zero_weight_never_wins examplePlayers 3%nat _ (mkPlayer "C" 0 0)
           Hnn eq_refl).
Defined.

(** C8: with distinct addresses, eligible weights that sum to a finite
    number, and fewer eligible participants than configured winners, all
    eligible participants win; tier by tier, each tier takes its count from
    what the earlier tiers left, so a tier that falls short is followed by
    empty tiers only. *)
Theorem exhaustion_fills_tiers_in_order tiers players seed :
  NoDup (address <$> players) →
  isFinite (totalTickets (filter (λ p, 0 < tickets p) players)) →
  let eligible := length (filter (λ p, 0 < tickets p) players) in
  let counts := winners <$> tiers in
  let awarded := length <$> tierWinners tiers players seed in
  (eligible < sum_list counts)%nat →
  sum_list awarded = eligible ∧
  awarded = filledInOrder eligible counts ∧
  (∀ i c a, counts !! i = Some c → awarded !! i = Some a → (a ≤ c)%nat) ∧
  (∀ i j c a b, (i < j)%nat → counts !! i = Some c → awarded !! i = Some a →
                (a < c)%nat → awarded !! j = Some b → b = 0%nat).
Proof.
  intros Hnd Hfin eligible counts awarded Hshort.
  assert (awarded = filledInOrder eligible counts) as Hfill.
  { unfold awarded, tierWinners, conductDrawState.
    rewrite tierLoop_filledInOrder; [done | | |]; cbn [ds_eligible].
    - by apply eligible_NoDup.
    - apply eligible_positive.
    - exact Hfin. }
  rewrite Hfill. split; [rewrite filledInOrder_sum; lia |]. split; [done |]. split.
  - intros i c a. apply filledInOrder_le.
  - intros i j c a b. apply filledInOrder_short_then_empty.
Qed.

Lemma exhaustion_fills_tiers_in_order_witness :
  NoDup (address <$> examplePlayers) ∧
  isFinite (totalTickets (filter (λ p, 0 < tickets p) examplePlayers)) ∧
  (length (filter (λ p, (0 < tickets p)%Z) examplePlayers)
   < sum_list (winners <$> PRIZE_TIERS))%nat ∧
  length <$> tierWinners PRIZE_TIERS examplePlayers "test" = [2; 0; 0]%nat.
Proof.
  assert (NoDup (address <$> examplePlayers)) as Hnd.
  { apply (bool_decide_unpack _). by vm_compute. }
  assert (isFinite (totalTickets (filter (λ p, 0 < tickets p) examplePlayers))) as Hfin.
  { exists 400. by vm_compute. }
  assert (length (filter (λ p, (0 < tickets p)%Z) examplePlayers)
          < sum_list (winners <$> PRIZE_TIERS))%nat as Hshort.
  { vm_compute. lia. }
  split; [exact Hnd |]. split; [exact Hfin |]. split; [exact Hshort |].
  exact (proj1 (proj2 (exhaustion_fills_tiers_in_order PRIZE_TIERS examplePlayers "test"
                         Hnd Hfin Hshort))).
Defined.

(** When the eligible weights sum beyond the largest double nobody wins:
    the two eligible participants of [hugePlayers] have distinct addresses
    and are fewer than the 75 configured winners, yet every tier has an
    empty [winners] array and the returned map is empty. *)
Lemma overflowing_pool_awards_nobody :
  NoDup (address <$> hugePlayers) ∧
  length (filter (λ p, 0 < tickets p) hugePlayers) = 2%nat ∧
  (2 < sum_list (winners <$> PRIZE_TIERS))%nat ∧
  length <$> tierWinners PRIZE_TIERS hugePlayers "test" = [0; 0; 0]%nat ∧
  sum_list (length <$> tierWinners PRIZE_TIERS hugePlayers "test") ≠ 2%nat ∧
  conductDraw hugePlayers "test" = ∅.
Proof.
  split; [apply (bool_decide_unpack _); by vm_compute |].
  split; [by vm_compute |]. split; [vm_compute; lia |].
  split; [by vm_compute |]. split; [by vm_compute |]. by vm_compute.
Qed.

End Draw.

(** ** Seeds are not validated *)

Section SeedAcceptance.

Lemma first_tier_awards t tiers st :
  (0 < winners t)%nat → ds_eligible st ≠ [] →
  Forall (λ p, 0 < tickets p) (ds_eligible st) →
  isFinite (totalTickets (ds_eligible st)) →
  ∃ w, w ∈ concat (ds_drawn (tierLoop (t :: tiers) st)).
Proof.
  intros Hcount Hne Hpos Hfin.
  pose proof (weightedRandomDraw_length _ (winners t) (ds_hashValue st) Hpos Hfin) as Hlen.
  destruct (snd (weightedRandomDraw (ds_eligible st) (winners t) (ds_hashValue st)))
    as [| w ws] eqn:Hws.
  { destruct (ds_eligible st); [done | simpl in Hlen; lia]. }
  exists w.
  cbn [tierLoop fold_left]. fold (tierLoop tiers (tierStep st t)).
  destruct (tierLoop_drawn_prefix tiers (tierStep st t)) as [more ->].
  rewrite tierStep_eq. cbn [ds_drawn]. rewrite Hws.
  rewrite !concat_app. simpl.
  apply elem_of_app. left. apply elem_of_app. right. by left.
Qed.

Lemma conductDraw_awards players seed :
  Exists (λ p, 0 < tickets p) players →
  isFinite (totalTickets (filter (λ p, 0 < tickets p) players)) →
  ∃ a, is_Some (conductDraw players seed !! a).
Proof.
  intros Hex Hfin.
  assert (filter (λ p, 0 < tickets p) players ≠ []) as Hne.
  { apply Exists_exists in Hex as (p & Hp & Hpos).
    intros Hnil.
    assert (p ∈ filter (λ p, 0 < tickets p) players) as Hin
      by (by apply list_elem_of_filter).
    rewrite Hnil in Hin. by apply elem_of_nil in Hin. }
  destruct (first_tier_awards (mkTier "Grand Prize" 5 2500)
              [mkTier "Major Prize" 20 1125; mkTier "Minor Prize" 50 300]
              (mkDrawState (createSeededRandom seed) ∅
                 (filter (λ p, 0 < tickets p) players) []))
    as [w Hw]; [simpl; lia | done | apply eligible_positive | exact Hfin |].
  exists (address w).
  apply (tierLoop_results_dom PRIZE_TIERS
           (mkDrawState (createSeededRandom seed) ∅
              (filter (λ p, 0 < tickets p) players) [])).
  - intros a. simpl. rewrite lookup_empty, elem_of_nil. split; [by intros [? ?] | done].
  - by apply list_elem_of_fmap_2.
Qed.

(** C6, as the code has it: no seed string is rejected.  The empty string
    derives the seed 0, and for every seed string the draw proceeds: a
    population with a participant of positive weight, whose positive weights
    sum to a finite number, gets a winner. *)
Theorem seed_is_never_rejected (players : list PlayerEntry) (seed : string) :
  Exists (λ p, 0 < tickets p) players →
  isFinite (totalTickets (filter (λ p, 0 < tickets p) players)) →
  createSeededRandom "" = 0 ∧
  ∃ a, is_Some (conductDraw players seed !! a).
Proof.
  intros Hex Hfin. split; [reflexivity | by apply conductDraw_awards].
Qed.

Lemma seed_is_never_rejected_witness :
  Exists (λ p, 0 < tickets p) examplePlayers ∧
  isFinite (totalTickets (filter (λ p, 0 < tickets p) examplePlayers)) ∧
  ∃ a, is_Some (conductDraw examplePlayers "" !! a).
Proof.
  assert (Exists (λ p, 0 < tickets p) examplePlayers) as Hex.
  { apply Exists_cons_hd. simpl. lia. }
  assert (isFinite (totalTickets (filter (λ p, 0 < tickets p) examplePlayers))) as Hfin.
  { exists 400. by vm_compute. }
  split; [exact Hex |]. split; [exact Hfin |].
  exact (proj2 (seed_is_never_rejected examplePlayers "" Hex Hfin)).
Defined.

(** With the empty seed the generator is built on state 0, it is called,
    and the first tier awards its winner. *)
Lemma empty_seed_draw_proceeds :
  createSeededRandom "" = 0 ∧
  ds_hashValue (conductDrawState PRIZE_TIERS [mkPlayer "A" 100 1] "") = 1831565813 ∧
  conductDraw [mkPlayer "A" 100 1] "" !! "A" = Some (mkTierResult "Grand Prize" 2500).
Proof. by vm_compute. Qed.

End SeedAcceptance.

(** ** The output table *)

Section Output.

Implicit Types (a b x y : DrawResult) (l : list DrawResult).
Implicit Types (results : gmap string TierResult) (players : list PlayerEntry).

Lemma round53_nonpos_iff (z : Z) : round53 z ≤ 0 ↔ z ≤ 0.
Proof.
  split.
  - intros Hr. destruct (decide (z ≤ 0)) as [| Hpos]; [done |].
    assert (round53 1 ≤ round53 z) as H1 by (apply round53_mono; lia).
    change (round53 1) with 1 in H1. lia.
  - intros Hz. pose proof (round53_nonneg (- z) ltac:(lia)) as Hn.
    rewrite round53_opp in Hn. lia.
Qed.

(** The comparator puts [a] first exactly when [a] has the larger amount,
    or the same amount and no fewer tickets. *)
Lemma compareRows_le a b : compareRows a b ≤ 0 ↔ rowBefore a b.
Proof.
  unfold compareRows, rowBefore, num_sub.
  case_decide; rewrite round53_nonpos_iff; lia.
Qed.

Lemma rowBefore_total a b : rowBefore a b ∨ rowBefore b a.
Proof. unfold rowBefore. lia. Qed.


Lemma insertRow_cases x y l :
  (rowBefore x y ∧ insertRow x (y :: l) = x :: y :: l) ∨
  (rowBefore y x ∧ ¬ rowBefore x y ∧ insertRow x (y :: l) = y :: insertRow x l).
Proof.
  cbn [insertRow]. destruct (compareRows x y <=? 0) eqn:E.
  - left. apply Z.leb_le, compareRows_le in E. done.
  - right. apply Z.leb_gt in E.
    assert (¬ rowBefore x y) as Hn by (rewrite <- compareRows_le; lia).
    destruct (rowBefore_total x y); done.
Qed.

Lemma insertRow_Permutation x l : insertRow x l ≡ₚ x :: l.
Proof.
  induction l as [| y l IH]; [done |].
  destruct (insertRow_cases x y l) as [[_ ->] | (_ & _ & ->)]; [done |].
  rewrite IH. apply Permutation_swap.
Qed.

Lemma sortRows_Permutation l : sortRows l ≡ₚ l.
Proof.
  induction l as [| x l IH]; [done |].
  cbn [sortRows foldr]. fold (sortRows l).
  by rewrite insertRow_Permutation, IH.
Qed.





(** The draw with the configured tiers only records positive amounts. *)
Lemma conductDraw_amounts_positive players seed :
  map_Forall (λ _ r, 0 < amount r) (conductDraw players seed).
Proof.
  apply (tierLoop_results_tier (λ r, 0 < amount r)).
  - intros t Ht. unfold PRIZE_TIERS in Ht.
    repeat (apply elem_of_cons in Ht as [-> | Ht]; [simpl; lia |]).
    by apply elem_of_nil in Ht.
  - apply map_Forall_empty.
Qed.



End Output.

(** ** The draw as a function of its inputs *)

Section Determinism.

Implicit Types (p w : PlayerEntry) (ws rem elig players : list PlayerEntry).

Lemma filter_fmap_iff {A B} (f : A → B) (P : B → Prop) (Q : A → Prop)
    `{∀ x, Decision (P x)} `{∀ x, Decision (Q x)} (l : list A) :
  (∀ x, P (f x) ↔ Q x) → filter P (f <$> l) = f <$> filter Q l.
Proof.
  intros HPQ. induction l as [| x l IH]; [done |].
  rewrite fmap_cons. destruct (decide (Q x)) as [Hq | Hq].
  - rewrite !filter_cons_True by (done || by apply HPQ). by rewrite fmap_cons, IH.
  - rewrite !filter_cons_False by (done || by rewrite HPQ). done.
Qed.

Lemma sum_bare rem c :
  fold_left addTickets (bare <$> rem) c = fold_left addTickets rem c.
Proof.
  revert c. induction rem as [| p rem IH]; intros c; [done |].
  rewrite fmap_cons, !fold_left_step. apply IH.
Qed.

Lemma scanFrom_bare rem (t c : number) j :
  scanFrom (bare <$> rem) t c j = scanFrom rem t c j.
Proof.
  revert c j. induction rem as [| p rem IH]; intros c j; [done |].
  rewrite fmap_cons. cbn [scanFrom].
  change (addTickets c (bare p)) with (addTickets c p).
  by rewrite IH.
Qed.

Lemma drawLoop_bare togo h ws rem :
  drawLoop togo h (bare <$> ws) (bare <$> rem)
  = let '(h', ws', rem') := drawLoop togo h ws rem in
    (h', bare <$> ws', bare <$> rem').
Proof.
  revert h ws rem. induction togo as [| togo IH]; intros h ws rem; [done |].
  rewrite !drawLoop_S. unfold totalTickets, findWinner.
  rewrite sum_bare, scanFrom_bare.
  destruct (decide (rem = [] ∨ fold_left addTickets rem (Num 0) = Num 0)) as [Hstop | Hgo].
  { rewrite decide_True; [done |].
    destruct Hstop as [-> | ?]; [by left | by right]. }
  rewrite decide_False.
  2:{ intros [Hnil | ?]; [| tauto]. apply fmap_nil_inv in Hnil. tauto. }
  destruct (scanFrom rem _ (Num 0) 0) as [j |]; [| apply IH].
  rewrite list_lookup_fmap. destruct (rem !! j) as [w |]; [| apply IH].
  cbn [fmap option_fmap option_map].
  rewrite <- list_fmap_delete.
  change [bare w] with (bare <$> [w]). rewrite <- fmap_app. apply IH.
Qed.

Lemma weightedRandomDraw_bare players count h :
  weightedRandomDraw (bare <$> players) count h
  = (fst (weightedRandomDraw players count h),
     bare <$> snd (weightedRandomDraw players count h)).
Proof.
  unfold weightedRandomDraw.
  change (@nil PlayerEntry) with (bare <$> @nil PlayerEntry) at 1.
  rewrite drawLoop_bare.
  by destruct (drawLoop count h [] players) as [[h' ws'] rem'].
Qed.

Lemma recordWinners_bare t ws results elig :
  recordWinners t (bare <$> ws) results (bare <$> elig)
  = (fst (recordWinners t ws results elig),
     bare <$> snd (recordWinners t ws results elig)).
Proof.
  revert results elig. induction ws as [| w ws IH]; intros results elig; [done |].
  rewrite fmap_cons. cbn [recordWinners].
  change (address (bare w)) with (address w).
  rewrite (filter_fmap_iff bare _ (λ p, address p ≠ address w)) by done.
  apply IH.
Qed.

Lemma tierStep_bare st t : tierStep (bareState st) t = bareState (tierStep st t).
Proof.
  unfold tierStep, bareState. cbn [ds_hashValue ds_results ds_eligible ds_drawn].
  rewrite weightedRandomDraw_bare.
  destruct (weightedRandomDraw (ds_eligible st) (winners t) (ds_hashValue st)) as [h ws].
  cbn [fst snd]. rewrite recordWinners_bare.
  destruct (recordWinners t ws (ds_results st) (ds_eligible st)) as [results elig].
  cbn [fst snd ds_hashValue ds_results ds_eligible ds_drawn].
  by rewrite fmap_app.
Qed.

Lemma tierLoop_bare tiers st : tierLoop tiers (bareState st) = bareState (tierLoop tiers st).
Proof.
  revert st. induction tiers as [| t tiers IH]; intros st; [done |].
  cbn [tierLoop fold_left]. fold (tierLoop tiers (tierStep (bareState st) t)).
  fold (tierLoop tiers (tierStep st t)). by rewrite tierStep_bare, IH.
Qed.

Lemma conductDrawState_bare tiers players seed :
  conductDrawState tiers (bare <$> players) seed
  = bareState (conductDrawState tiers players seed).
Proof.
  unfold conductDrawState. rewrite <- tierLoop_bare. f_equal.
  unfold bareState. cbn [ds_hashValue ds_results ds_eligible ds_drawn].
  f_equal. by apply filter_fmap_iff.
Qed.

Lemma bare_fmap players : bare <$> players = ofDrawInput <$> (drawInput <$> players).
Proof. by rewrite <- list_fmap_compose. Qed.

(** C1: the winner mapping is a function of the ordered list of
    (identifier, weight) pairs, the tier list and the seed string: two runs
    that agree on these return the same mapping, and draw, tier by tier, the
    same identifiers with the same weights in the same order. *)
Theorem draw_is_function_of_inputs
    (tiers : list PrizeTier) (players1 players2 : list PlayerEntry) (seed : string) :
  drawInput <$> players1 = drawInput <$> players2 →
  conductDrawWith tiers players1 seed = conductDrawWith tiers players2 seed ∧
  fmap (M := list) drawInput <$> tierWinners tiers players1 seed
  = fmap (M := list) drawInput <$> tierWinners tiers players2 seed.
Proof.
  intros Hsame.
  assert (bareState (conductDrawState tiers players1 seed)
          = bareState (conductDrawState tiers players2 seed)) as Hbare.
  { rewrite <- !conductDrawState_bare, !bare_fmap. by rewrite Hsame. }
  unfold conductDrawWith, tierWinners. split.
  - exact (f_equal ds_results Hbare).
  - apply (f_equal ds_drawn) in Hbare. cbn [bareState ds_drawn] in Hbare.
    apply (f_equal (fmap (fmap (M := list) drawInput))) in Hbare.
    rewrite <- !list_fmap_compose in Hbare.
    assert (∀ l : list (list PlayerEntry),
              fmap (M := list) drawInput ∘ fmap bare <$> l
              = fmap (M := list) drawInput <$> l) as Hdrop.
    { intros l. apply list_fmap_ext. intros ? ws _. simpl.
      rewrite <- list_fmap_compose. by apply list_fmap_ext. }
    by rewrite !Hdrop in Hbare.
Qed.

Lemma draw_is_function_of_inputs_witness :
  drawInput <$> examplePlayers
  = drawInput <$> [mkPlayer "A" 0 300; mkPlayer "B" 7 100; mkPlayer "C" 9 0] ∧
  conductDrawWith PRIZE_TIERS examplePlayers "test"
  = conductDrawWith PRIZE_TIERS
      [mkPlayer "A" 0 300; mkPlayer "B" 7 100; mkPlayer "C" 9 0] "test".
Proof.
  assert (drawInput <$> examplePlayers
          = drawInput <$> [mkPlayer "A" 0 300; mkPlayer "B" 7 100; mkPlayer "C" 9 0])
    as Hsame by reflexivity.
  split; [exact Hsame |].
  exact (proj1 (draw_is_function_of_inputs PRIZE_TIERS examplePlayers _ "test" Hsame)).
Defined.

End Determinism.

(** ** The draw over a store *)

Section StoreModel.

Implicit Types (σ : Store) (refs kept : list loc) (ps : list PlayerEntry).
Implicit Types (a o wl rl : loc).

Lemma bindM_eq {A B} (m : M A) (k : A → M B) σ x σ' :
  m σ = Some (x, σ') → bindM m k σ = k x σ'.
Proof. intros Hm. unfold bindM. by rewrite Hm. Qed.

Lemma extends_refl σ : extends σ σ.
Proof. by split. Qed.

Lemma extends_trans σ1 σ2 σ3 : extends σ1 σ2 → extends σ2 σ3 → extends σ1 σ3.
Proof. intros [Ho1 Ha1] [Ho2 Ha2]. split; [congruence | eauto]. Qed.

Lemma resolve_objects σ σ' refs :
  st_objects σ' = st_objects σ → resolve σ' refs = resolve σ refs.
Proof. intros Ho. unfold resolve. by rewrite Ho. Qed.

Lemma resolve_Forall2 σ refs ps :
  resolve σ refs = Some ps ↔ Forall2 (λ o p, st_objects σ !! o = Some p) refs ps.
Proof. apply mapM_Some. Qed.

Lemma resolve_nil σ : resolve σ [] = Some [].
Proof. done. Qed.

Lemma resolve_cons_inv σ o refs ps :
  resolve σ (o :: refs) = Some ps →
  ∃ p ps', ps = p :: ps' ∧ st_objects σ !! o = Some p ∧ resolve σ refs = Some ps'.
Proof.
  rewrite resolve_Forall2. intros (p & ps' & Hp & Hrest & ->)%Forall2_cons_inv_l.
  exists p, ps'. by rewrite resolve_Forall2.
Qed.

Lemma resolve_snoc σ refs ps o p :
  resolve σ refs = Some ps → st_objects σ !! o = Some p →
  resolve σ (refs ++ [o]) = Some (ps ++ [p]).
Proof.
  rewrite !resolve_Forall2. intros Hrefs Ho.
  apply Forall2_app; [done |]. by constructor.
Qed.

Lemma resolve_delete σ refs ps j :
  resolve σ refs = Some ps → resolve σ (delete j refs) = Some (delete j ps).
Proof. rewrite !resolve_Forall2. apply Forall2_delete. Qed.

Lemma resolve_lookup σ refs ps j :
  resolve σ refs = Some ps →
  match refs !! j with
  | Some o => ∃ p, ps !! j = Some p ∧ st_objects σ !! o = Some p
  | None => ps !! j = None
  end.
Proof.
  rewrite resolve_Forall2. intros Hall.
  destruct (refs !! j) as [o |] eqn:Ho.
  - destruct (Forall2_lookup_l _ _ _ _ _ Hall Ho) as (p & Hp & Hop). eauto.
  - apply lookup_ge_None. apply lookup_ge_None in Ho.
    by rewrite <- (Forall2_length _ _ _ Hall).
Qed.

Lemma fresh_array_unused σ : st_arrays σ !! fresh (dom (st_arrays σ)) = None.
Proof. apply not_elem_of_dom, is_fresh. Qed.

Lemma newArray_extends σ xs :
  extends σ (mkStore (<[fresh (dom (st_arrays σ)) := xs]> (st_arrays σ))
               (st_objects σ) (st_hashValue σ)).
Proof.
  split; [done |]. intros a ys Ha. cbn [st_arrays].
  rewrite lookup_insert_ne; [done |].
  intros <-. by rewrite fresh_array_unused in Ha.
Qed.

Lemma sumTicketsM_spec σ refs ps c :
  resolve σ refs = Some ps →
  sumTicketsM refs c σ = Some (fold_left addTickets ps c, σ).
Proof.
  revert ps c. induction refs as [| o refs IH]; intros ps c Hres.
  { apply resolve_Forall2, Forall2_nil_inv_l in Hres as ->. done. }
  apply resolve_cons_inv in Hres as (p & ps' & -> & Ho & Hres).
  cbn [sumTicketsM]. rewrite (bindM_eq _ _ σ p σ) by (unfold getPlayer; by rewrite Ho).
  rewrite fold_left_step. by apply IH.
Qed.

Lemma scanFromM_spec σ refs ps t c j :
  resolve σ refs = Some ps →
  scanFromM refs t c j σ = Some (scanFrom ps t c j, σ).
Proof.
  revert ps c j. induction refs as [| o refs IH]; intros ps c j Hres.
  { apply resolve_Forall2, Forall2_nil_inv_l in Hres as ->. done. }
  apply resolve_cons_inv in Hres as (p & ps' & -> & Ho & Hres).
  cbn [scanFromM scanFrom].
  rewrite (bindM_eq _ _ σ p σ) by (unfold getPlayer; by rewrite Ho).
  destruct (js_lt t (addTickets c p)); [done | by apply IH].
Qed.

(** The loop updates the two arrays it is given and nothing else; what the
    arrays hold afterwards is what the loop on lists computes. *)
Lemma drawLoopM_spec togo wl rl σ wrefs rrefs wps rps :
  wl ≠ rl →
  st_arrays σ !! wl = Some wrefs → st_arrays σ !! rl = Some rrefs →
  resolve σ wrefs = Some wps → resolve σ rrefs = Some rps →
  ∃ σ' wrefs' rrefs',
    drawLoopM togo wl rl σ = Some (tt, σ') ∧
    st_objects σ' = st_objects σ ∧
    (∀ a, a ≠ wl → a ≠ rl → st_arrays σ' !! a = st_arrays σ !! a) ∧
    st_arrays σ' !! wl = Some wrefs' ∧ st_arrays σ' !! rl = Some rrefs' ∧
    st_hashValue σ' = (drawLoop togo (st_hashValue σ) wps rps).1.1 ∧
    resolve σ' wrefs' = Some (drawLoop togo (st_hashValue σ) wps rps).1.2 ∧
    resolve σ' rrefs' = Some (drawLoop togo (st_hashValue σ) wps rps).2.
Proof.
  intros Hne. revert σ wrefs rrefs wps rps.
  induction togo as [| togo IH]; intros σ wrefs rrefs wps rps Hw Hr Hwres Hrres.
  { exists σ, wrefs, rrefs. by repeat split. }
  assert (∃ σ' wrefs' rrefs',
            Some (tt, σ) = Some (tt, σ') ∧
            st_objects σ' = st_objects σ ∧
            (∀ a, a ≠ wl → a ≠ rl → st_arrays σ' !! a = st_arrays σ !! a) ∧
            st_arrays σ' !! wl = Some wrefs' ∧ st_arrays σ' !! rl = Some rrefs' ∧
            st_hashValue σ' = st_hashValue σ ∧
            resolve σ' wrefs' = Some wps ∧ resolve σ' rrefs' = Some rps) as Hstop.
  { exists σ, wrefs, rrefs. by repeat split. }
  cbn [drawLoopM]. rewrite (bindM_eq _ _ σ rrefs σ) by (unfold getArray; by rewrite Hr).
  destruct rrefs as [| o rrefs].
  { apply resolve_Forall2, Forall2_nil_inv_l in Hrres as ->. exact Hstop. }
  pose proof Hrres as Hrres'.
  apply resolve_cons_inv in Hrres' as (p & rps' & -> & _ & _).
  cbn [drawLoop]. unfold totalTickets.
  rewrite (bindM_eq _ _ _ _ _ (sumTicketsM_spec σ _ _ (Num 0) Hrres)).
  destruct (decide (fold_left addTickets (p :: rps') (Num 0) = Num 0)) as [Hzero | Hpos];
    [exact Hstop |].
  clear Hstop.
  set (total := fold_left addTickets (p :: rps') (Num 0)) in *.
  set (σ1 := mkStore (st_arrays σ) (st_objects σ) (fst (random (st_hashValue σ)))).
  rewrite (bindM_eq _ _ σ (snd (random (st_hashValue σ))) σ1)
    by (unfold callRandom; by destruct (random (st_hashValue σ))).
  destruct (random (st_hashValue σ)) as [h' u] eqn:Hrandom. cbn [fst snd] in *.
  assert (resolve σ1 (o :: rrefs) = Some (p :: rps')) as Hrres1 by done.
  rewrite (bindM_eq _ _ _ _ _ (scanFromM_spec σ1 _ _ (floorMul u total) (Num 0) 0 Hrres1)).
  unfold findWinner.
  assert (∃ σ' wrefs' rrefs', drawLoopM togo wl rl σ1 = Some (tt, σ') ∧
               st_objects σ' = st_objects σ1 ∧
               (∀ a, a ≠ wl → a ≠ rl → st_arrays σ' !! a = st_arrays σ1 !! a) ∧
               st_arrays σ' !! wl = Some wrefs' ∧ st_arrays σ' !! rl = Some rrefs' ∧
               st_hashValue σ' = (drawLoop togo h' wps (p :: rps')).1.1 ∧
               resolve σ' wrefs' = Some (drawLoop togo h' wps (p :: rps')).1.2 ∧
               resolve σ' rrefs' = Some (drawLoop togo h' wps (p :: rps')).2)
    as Hsame.
  { by apply (IH σ1 wrefs (o :: rrefs)). }
  destruct (scanFrom (p :: rps') (floorMul u total) (Num 0) 0) as [j |]; [| exact Hsame].
  pose proof (resolve_lookup σ1 (o :: rrefs) (p :: rps') j Hrres1) as Hj.
  destruct ((o :: rrefs) !! j) as [w |] eqn:Hw'.
  2:{ rewrite Hj. exact Hsame. }
  destruct Hj as (pw & -> & Hpw). clear Hsame.
  rewrite (bindM_eq _ _ σ1 wrefs σ1) by (unfold getArray; cbn; by rewrite Hw).
  set (σ2 := mkStore (<[wl := wrefs ++ [w]]> (st_arrays σ)) (st_objects σ) h').
  rewrite (bindM_eq _ _ σ1 tt σ2) by (unfold setArray; cbn; by rewrite Hw).
  rewrite (bindM_eq _ _ σ2 (o :: rrefs) σ2)
    by (unfold getArray; cbn; by rewrite lookup_insert_ne, Hr).
  set (σ3 := mkStore (<[rl := delete j (o :: rrefs)]> (st_arrays σ2)) (st_objects σ) h').
  rewrite (bindM_eq _ _ σ2 tt σ3)
    by (unfold setArray; cbn; by rewrite lookup_insert_ne, Hr).
  destruct (IH σ3 (wrefs ++ [w]) (delete j (o :: rrefs)) (wps ++ [pw])
              (delete j (p :: rps')))
    as (σ' & wrefs' & rrefs' & Hrun & Hobj & Hframe & Hw3 & Hr3 & Hh & Hwres3 & Hrres3).
  - cbn. by rewrite lookup_insert_ne, lookup_insert_eq.
  - cbn. by rewrite lookup_insert_eq.
  - by apply resolve_snoc.
  - by apply (resolve_delete σ1).
  - exists σ', wrefs', rrefs'. repeat split; try done.
    intros a Hawl Harl. rewrite (Hframe a Hawl Harl). cbn.
    by rewrite !lookup_insert_ne.
Qed.

Lemma weightedRandomDrawM_spec σ players count refs ps :
  st_arrays σ !! players = Some refs → resolve σ refs = Some ps →
  ∃ σ' wl wrefs,
    weightedRandomDrawM players count σ = Some (wl, σ') ∧
    extends σ σ' ∧
    st_arrays σ' !! wl = Some wrefs ∧
    resolve σ' wrefs = Some (weightedRandomDraw ps count (st_hashValue σ)).2 ∧
    st_hashValue σ' = (weightedRandomDraw ps count (st_hashValue σ)).1.
Proof.
  intros Hpl Hres. unfold weightedRandomDrawM.
  set (w0 := fresh (dom (st_arrays σ))).
  set (σa := mkStore (<[w0 := []]> (st_arrays σ)) (st_objects σ) (st_hashValue σ)).
  rewrite (bindM_eq _ _ σ w0 σa) by done.
  assert (players ≠ w0) as Hpw.
  { intros ->. unfold w0 in Hpl. by rewrite fresh_array_unused in Hpl. }
  rewrite (bindM_eq _ _ σa refs σa)
    by (unfold getArray; cbn; by rewrite lookup_insert_ne, Hpl).
  set (r0 := fresh (dom (st_arrays σa))).
  set (σb := mkStore (<[r0 := refs]> (st_arrays σa)) (st_objects σ) (st_hashValue σ)).
  rewrite (bindM_eq _ _ σa r0 σb) by done.
  assert (w0 ≠ r0) as Hwr.
  { intros Heq. pose proof (fresh_array_unused σa) as Hfresh. fold r0 in Hfresh.
    rewrite <- Heq in Hfresh. cbn in Hfresh. by rewrite lookup_insert_eq in Hfresh. }
  destruct (drawLoopM_spec count w0 r0 σb [] refs [] ps Hwr)
    as (σ' & wrefs' & rrefs' & Hrun & Hobj & Hframe & Hw & _ & Hh & Hwres & _).
  - cbn. by rewrite lookup_insert_ne, lookup_insert_eq.
  - cbn. by rewrite lookup_insert_eq.
  - done.
  - done.
  - rewrite (bindM_eq _ _ _ _ _ Hrun). exists σ', w0, wrefs'.
    assert ((weightedRandomDraw ps count (st_hashValue σ)).2
            = (drawLoop count (st_hashValue σ) [] ps).1.2
            ∧ (weightedRandomDraw ps count (st_hashValue σ)).1
              = (drawLoop count (st_hashValue σ) [] ps).1.1) as [-> ->].
    { unfold weightedRandomDraw.
      by destruct (drawLoop count (st_hashValue σ) [] ps) as [[? ?] ?]. }
    repeat split; try done.
    intros a xs Ha.
    assert (a ≠ w0) as Haw.
    { intros ->. unfold w0 in Ha. by rewrite fresh_array_unused in Ha. }
    assert (a ≠ r0) as Har.
    { intros ->. pose proof (fresh_array_unused σa) as Hfresh. fold r0 in Hfresh.
      cbn in Hfresh. rewrite lookup_insert_ne in Hfresh by done. congruence. }
    rewrite (Hframe a Haw Har). cbn. by rewrite !lookup_insert_ne.
Qed.

Lemma keepM_spec (f : PlayerEntry → bool) σ refs ps :
  resolve σ refs = Some ps →
  ∃ kept, keepM f refs σ = Some (kept, σ) ∧
          resolve σ kept = Some (filter (λ p, f p) ps).
Proof.
  revert ps. induction refs as [| o refs IH]; intros ps Hres.
  { apply resolve_Forall2, Forall2_nil_inv_l in Hres as ->. by exists []. }
  apply resolve_cons_inv in Hres as (p & ps' & -> & Ho & Hres).
  destruct (IH ps' Hres) as (kept & Hrun & Hkept).
  cbn [keepM]. rewrite (bindM_eq _ _ σ p σ) by (unfold getPlayer; by rewrite Ho).
  rewrite (bindM_eq _ _ _ _ _ Hrun). unfold retM.
  destruct (f p) eqn:Hf.
  - exists (o :: kept). split; [done |].
    rewrite filter_cons_True by (by rewrite Hf).
    apply resolve_Forall2. constructor; [done | by apply resolve_Forall2].
  - exists kept. split; [done |].
    rewrite filter_cons_False; [done |]. rewrite Hf. intros [].
Qed.

Lemma filterM_spec (f : PlayerEntry → bool) σ arr refs ps :
  st_arrays σ !! arr = Some refs → resolve σ refs = Some ps →
  ∃ σ' arr' kept,
    filterM f arr σ = Some (arr', σ') ∧ extends σ σ' ∧
    st_hashValue σ' = st_hashValue σ ∧
    st_arrays σ' !! arr' = Some kept ∧
    resolve σ' kept = Some (filter (λ p, f p) ps).
Proof.
  intros Harr Hres. unfold filterM.
  rewrite (bindM_eq _ _ σ refs σ) by (unfold getArray; by rewrite Harr).
  destruct (keepM_spec f σ refs ps Hres) as (kept & Hrun & Hkept).
  rewrite (bindM_eq _ _ _ _ _ Hrun).
  eexists _, _, kept. split; [done |]. split; [apply newArray_extends |].
  split; [done |]. split; [cbn; by rewrite lookup_insert_eq | done].
Qed.

Lemma filter_bool_decide {A} (P : A → Prop) `{∀ x, Decision (P x)} (l : list A) :
  filter (λ x, bool_decide (P x)) l = filter P l.
Proof. apply list_filter_iff. intros x. apply bool_decide_spec. Qed.

Lemma recordWinnersM_spec t wrefs results el σ ws erefs elig :
  resolve σ wrefs = Some ws →
  st_arrays σ !! el = Some erefs → resolve σ erefs = Some elig →
  ∃ σ' el' erefs',
    recordWinnersM t wrefs results el σ
    = Some ((fst (recordWinners t ws results elig), el'), σ') ∧
    extends σ σ' ∧ st_hashValue σ' = st_hashValue σ ∧
    st_arrays σ' !! el' = Some erefs' ∧
    resolve σ' erefs' = Some (snd (recordWinners t ws results elig)).
Proof.
  revert results el σ ws erefs elig.
  induction wrefs as [| w wrefs IH]; intros results el σ ws erefs elig Hws Hel Helig.
  { apply resolve_Forall2, Forall2_nil_inv_l in Hws as ->.
    exists σ, el, erefs. repeat split; try done. }
  apply resolve_cons_inv in Hws as (winner & ws' & -> & Hw & Hws).
  cbn [recordWinnersM recordWinners].
  rewrite (bindM_eq _ _ σ winner σ) by (unfold getPlayer; by rewrite Hw).
  destruct (filterM_spec (λ p, bool_decide (address p ≠ address winner)) σ el erefs elig
              Hel Helig) as (σ1 & el1 & kept & Hrun & Hext & Hh & Hel1 & Hkept).
  rewrite (bindM_eq _ _ _ _ _ Hrun).
  rewrite filter_bool_decide in Hkept.
  destruct (IH (<[address winner := mkTierResult (name t) (initPerWinner t)]> results)
              el1 σ1 ws' kept (filter (λ p, address p ≠ address winner) elig))
    as (σ' & el' & erefs' & Hrun' & Hext' & Hh' & Hel' & Hres'); [| done | done |].
  { by rewrite (resolve_objects σ σ1) by apply Hext. }
  exists σ', el', erefs'. split; [done |]. split; [by eapply extends_trans |].
  split; [congruence | done].
Qed.

Lemma tierLoopM_spec tiers results el σ erefs elig drawn :
  st_arrays σ !! el = Some erefs → resolve σ erefs = Some elig →
  ∃ σ',
    tierLoopM tiers results el σ
    = Some (ds_results (tierLoop tiers (mkDrawState (st_hashValue σ) results elig drawn)),
            σ') ∧
    extends σ σ'.
Proof.
  revert results el σ erefs elig drawn.
  induction tiers as [| t tiers IH]; intros results el σ erefs elig drawn Hel Helig.
  { exists σ. split; [done | apply extends_refl]. }
  cbn [tierLoopM tierLoop fold_left].
  fold (tierLoop tiers (tierStep (mkDrawState (st_hashValue σ) results elig drawn) t)).
  destruct (weightedRandomDrawM_spec σ el (winners t) erefs elig Hel Helig)
    as (σ1 & wl & wrefs & Hrun1 & Hext1 & Hwl & Hwres & Hh1).
  rewrite (bindM_eq _ _ _ _ _ Hrun1).
  rewrite (bindM_eq _ _ σ1 wrefs σ1) by (unfold getArray; by rewrite Hwl).
  destruct (recordWinnersM_spec t wrefs results el σ1 _ erefs elig Hwres)
    as (σ2 & el' & erefs' & Hrun2 & Hext2 & Hh2 & Hel' & Hres').
  { by apply Hext1. }
  { by rewrite (resolve_objects σ σ1) by apply Hext1. }
  rewrite (bindM_eq _ _ _ _ _ Hrun2).
  unfold tierStep. cbn [ds_eligible ds_hashValue ds_results ds_drawn].
  destruct (weightedRandomDraw elig (winners t) (st_hashValue σ)) as [h' ws].
  cbn [fst snd] in *.
  destruct (recordWinners t ws results elig) as [results' elig'].
  cbn [fst snd] in *.
  destruct (IH results' el' σ2 erefs' elig' (drawn ++ [ws]) Hel' Hres')
    as (σ' & Hrun' & Hext').
  exists σ'. split.
  - rewrite Hrun'. do 4 f_equal. congruence.
  - eauto using extends_trans.
Qed.

Lemma conductDrawM_spec tiers σ players seed refs ps :
  st_arrays σ !! players = Some refs → resolve σ refs = Some ps →
  ∃ σ', conductDrawM tiers players seed σ = Some (conductDrawWith tiers ps seed, σ') ∧
        extends σ σ'.
Proof.
  intros Hpl Hres. unfold conductDrawM.
  set (σ0 := mkStore (st_arrays σ) (st_objects σ) (createSeededRandom seed)).
  rewrite (bindM_eq _ _ σ tt σ0) by done.
  destruct (filterM_spec (λ p, bool_decide (0 < tickets p)) σ0 players refs ps Hpl Hres)
    as (σ1 & el & kept & Hrun & Hext & Hh & Hel & Hkept).
  rewrite (bindM_eq _ _ _ _ _ Hrun).
  rewrite filter_bool_decide in Hkept.
  destruct (tierLoopM_spec tiers ∅ el σ1 kept _ [] Hel Hkept) as (σ' & Hrun' & Hext').
  exists σ'. split.
  - rewrite Hrun'. unfold conductDrawWith, conductDrawState. by rewrite Hh.
  - apply (extends_trans σ σ0); [by split |]. by eapply extends_trans.
Qed.

(** C10: on a store where the array [players] holds references to
    participant records, the sampler and the draw return, with the results
    of the list model, and leave every array that existed before the call,
    [players] among them, and every record unchanged: the arrays they update
    are new ones. *)
Theorem draw_leaves_population_unchanged
    (tiers : list PrizeTier) (count : nat) (seed : string)
    (σ : Store) (players : loc) (refs : list loc) (ps : list PlayerEntry) :
  st_arrays σ !! players = Some refs → resolve σ refs = Some ps →
  (∃ σ' wl wrefs,
     weightedRandomDrawM players count σ = Some (wl, σ') ∧
     st_arrays σ' !! wl = Some wrefs ∧
     resolve σ' wrefs = Some (weightedRandomDraw ps count (st_hashValue σ)).2 ∧
     st_arrays σ' !! players = Some refs ∧ resolve σ' refs = Some ps ∧ extends σ σ') ∧
  (∃ σ',
     conductDrawM tiers players seed σ = Some (conductDrawWith tiers ps seed, σ') ∧
     st_arrays σ' !! players = Some refs ∧ resolve σ' refs = Some ps ∧ extends σ σ').
Proof.
  intros Hpl Hres. split.
  - destruct (weightedRandomDrawM_spec σ players count refs ps Hpl Hres)
      as (σ' & wl & wrefs & Hrun & Hext & Hwl & Hwres & _).
    exists σ', wl, wrefs. repeat split; try done; try apply Hext; try done.
    by rewrite (resolve_objects σ σ') by apply Hext.
  - destruct (conductDrawM_spec tiers σ players seed refs ps Hpl Hres)
      as (σ' & Hrun & Hext).
    exists σ'. repeat split; try done; try apply Hext; try done.
    by rewrite (resolve_objects σ σ') by apply Hext.
Qed.

Lemma draw_leaves_population_unchanged_witness :
  st_arrays exampleStore !! 1%positive = Some [1; 2; 3]%positive ∧
  resolve exampleStore [1; 2; 3]%positive = Some examplePlayers ∧
  ∃ σ',
    conductDrawM PRIZE_TIERS 1%positive "test" exampleStore
    = Some (conductDrawWith PRIZE_TIERS examplePlayers "test", σ') ∧
    st_arrays σ' !! 1%positive = Some [1; 2; 3]%positive ∧
    resolve σ' [1; 2; 3]%positive = Some examplePlayers ∧
    extends exampleStore σ'.
Proof.
  assert (st_arrays exampleStore !! 1%positive = Some [1; 2; 3]%positive) as Hpl
    by (by vm_compute).
  assert (resolve exampleStore [1; 2; 3]%positive = Some examplePlayers) as Hres
    by (by vm_compute).
  split; [exact Hpl |]. split; [exact Hres |].
  exact (proj2 (draw_leaves_population_unchanged PRIZE_TIERS 0 "test" exampleStore
                  1%positive _ _ Hpl Hres)).
Defined.

End StoreModel.

(** ** More on the sampler *)

Section SamplerExtras.

Implicit Types (p w : PlayerEntry) (rem ws players : list PlayerEntry) (t c h : Z).

Lemma sum_ge_1_exists rem c :
  0 ≤ c → round53 c = c →
  Forall (λ p, 0 ≤ tickets p) rem → Exists (λ p, 0 < tickets p) rem →
  fold_left addTickets rem (Num c) = PosInf ∨
  ∃ T, fold_left addTickets rem (Num c) = Num T ∧ 1 ≤ T.
Proof.
  intros Hc Hd Hnn Hex. revert c Hc Hd.
  induction Hnn as [| p rem Hp Hnn IH]; intros c Hc Hd; [by apply Exists_nil in Hex |].
  rewrite fold_left_step.
  change (addTickets (Num c) p) with (overflow (c + tickets p)).
  destruct (overflow_nonneg (c + tickets p)) as [-> | [-> _]]; [lia | |].
  { left. apply sum_PosInf. }
  pose proof (round53_nonneg (c + tickets p) ltac:(lia)) as Hr.
  apply Exists_cons in Hex as [Hpos | Hex].
  - assert (1 ≤ round53 (c + tickets p)) as Hr1.
    { change 1 with (round53 1) at 1. apply round53_mono; lia. }
    destruct (sum_nonneg_cases rem (round53 (c + tickets p)))
      as [-> | (T & -> & HT)]; [lia | apply round53_idem | done | by left |].
    right. exists T. split; [done | lia].
  - apply IH; [done | done | apply round53_idem].
Qed.

Lemma totalTickets_zero rem :
  Forall (λ p, 0 ≤ tickets p) rem → totalTickets rem = Num 0 → positive rem = [].
Proof.
  intros Hnn Hzero. apply filter_none, Forall_forall. intros p Hp Hpos.
  assert (Exists (λ p, 0 < tickets p) rem) as Hex by (apply Exists_exists; eauto).
  destruct (sum_ge_1_exists rem 0 ltac:(lia) eq_refl Hnn Hex) as [E | (T & E & HT)];
    unfold totalTickets in Hzero; rewrite E in Hzero; [done |].
  injection Hzero as ->. lia.
Qed.

Lemma selected_is_positive rem j w t lo hi :
  Forall (λ p, 0 ≤ tickets p) rem → rem !! j = Some w →
  cumulativeTo rem j = Num lo → lo ≤ t →
  cumulativeTo rem (S j) = Num hi → t < hi → 0 < tickets w.
Proof.
  intros Hnn Hw Hlo Hlot Hhi Hthi.
  rewrite (cumulativeTo_S _ _ _ Hw), Hlo in Hhi.
  apply addTickets_Num in Hhi as [Hhi _].
  pose proof (Forall_lookup_1 _ _ _ _ Hnn Hw) as Hw0. simpl in Hw0.
  destruct (decide (tickets w = 0)) as [E | E]; [| lia].
  rewrite E, Z.add_0_r, (cumulativeTo_is_double _ _ _ Hlo) in Hhi. lia.
Qed.

Lemma positive_delete rem j w :
  rem !! j = Some w → 0 < tickets w →
  length (positive (delete j rem)) = (length (positive rem) - 1)%nat.
Proof.
  intros Hw Hpos. unfold positive.
  rewrite (filter_Permutation _ _ _ (delete_Permutation _ _ _ Hw)).
  rewrite filter_cons_True by done. simpl. lia.
Qed.

(** The loop on non-negative weights with a finite total: one winner and one
    call of the generator per iteration, until the count or the positive
    weights run out. *)
Lemma drawLoop_count togo h ws rem h' ws' rem' :
  Forall (λ p, 0 ≤ tickets p) rem → isFinite (totalTickets rem) →
  drawLoop togo h ws rem = (h', ws', rem') →
  length ws' = (length ws + togo `min` length (positive rem))%nat ∧
  h' = stateAfter (togo `min` length (positive rem)) h.
Proof.
  revert h ws rem. induction togo as [| togo IH]; intros h ws rem Hnn Hfin.
  { simpl. intros [= <- <- <-]. split; [lia | done]. }
  rewrite drawLoop_S. case_decide as Hstop.
  { intros [= <- <- <-].
    assert (positive rem = []) as ->.
    { destruct Hstop as [-> | Hzero]; [done | by apply totalTickets_zero]. }
    simpl length. rewrite Nat.min_0_r. split; [lia | done]. }
  destruct (totalTickets_nonneg_cases rem Hnn) as [E | (T & E & HT)].
  { destruct Hfin as [T E']. by rewrite E in E'. }
  assert (0 < T) as Htotal.
  { destruct (decide (T = 0)) as [-> | ?]; [tauto | lia]. }
  destruct (draw_selects rem h T E Htotal)
    as (t & -> & _ & j & w & -> & Hw & (lo & Hlo & Hlot) & (hi & Hhi & Hthi) & _).
  rewrite Hw. intros Hrun.
  pose proof (selected_is_positive _ _ _ _ _ _ Hnn Hw Hlo Hlot Hhi Hthi) as Hpos.
  destruct (IH _ _ _ (Forall_delete _ _ _ Hnn)
              (totalTickets_sublist _ _ (sublist_delete _ _) Hnn Hfin) Hrun)
    as [Hlen Hstate].
  rewrite (positive_delete _ _ _ Hw Hpos) in Hlen, Hstate.
  assert (w ∈ positive rem) as Hin.
  { apply list_elem_of_filter. split; [done | by eapply list_elem_of_lookup_2]. }
  assert (0 < length (positive rem))%nat as Hsome.
  { destruct (positive rem); [by apply elem_of_nil in Hin | simpl; lia]. }
  rewrite length_app in Hlen. simpl length in Hlen.
  replace (S togo `min` length (positive rem))%nat
    with (S (togo `min` (length (positive rem) - 1)))%nat by lia.
  split; [lia | done].
Qed.

Lemma drawLoop_at_most togo h ws rem h' ws' rem' :
  drawLoop togo h ws rem = (h', ws', rem') → (length ws' ≤ length ws + togo)%nat.
Proof.
  revert h ws rem. induction togo as [| togo IH]; intros h ws rem.
  { simpl. intros [= <- <- <-]. lia. }
  rewrite drawLoop_S. case_decide.
  { intros [= <- <- <-]. lia. }
  destruct (findWinner _ _) as [j |]; [| intros Hrun%IH; lia].
  destruct (rem !! j) as [w |]; [| intros Hrun%IH; lia].
  intros Hrun%IH. rewrite length_app in Hrun. simpl in Hrun. lia.
Qed.

(** The winners are taken out of the pool, each position at most once, and
    there are at most [count] of them. *)
Theorem weightedRandomDraw_takes_from_pool players count h :
  ∃ rest, players ≡ₚ snd (weightedRandomDraw players count h) ++ rest ∧
          (length (snd (weightedRandomDraw players count h)) ≤ count)%nat ∧
          (length (snd (weightedRandomDraw players count h)) + length rest
           = length players)%nat.
Proof.
  destruct (weightedRandomDraw_drawLoop players count h) as [rem' Hrun].
  destruct (drawLoop_partition _ _ _ _ _ _ _ Hrun) as (new & Hnew & Hperm).
  simpl in Hnew. exists rem'. rewrite Hnew. split; [done |]. split.
  - apply drawLoop_at_most in Hrun. simpl in Hrun. by rewrite <- Hnew.
  - apply Permutation_length in Hperm. by rewrite length_app in Hperm.
Qed.

(** On a pool of non-negative weights whose sum is a finite number the
    sampler returns min(count, number of participants of positive weight)
    winners. *)
Theorem weightedRandomDraw_winner_count players count h :
  Forall (λ p, 0 ≤ tickets p) players → isFinite (totalTickets players) →
  length (snd (weightedRandomDraw players count h))
  = (count `min` length (positive players))%nat.
Proof.
  intros Hnn Hfin.
  destruct (weightedRandomDraw_drawLoop players count h) as [rem' Hrun].
  by destruct (drawLoop_count _ _ _ _ _ _ _ Hnn Hfin Hrun) as [-> _].
Qed.

Lemma weightedRandomDraw_winner_count_witness :
  Forall (λ p, 0 ≤ tickets p) examplePlayers ∧
  isFinite (totalTickets examplePlayers) ∧
  length (snd (weightedRandomDraw examplePlayers 5 0)) = 2%nat.
Proof.
  assert (Forall (λ q, 0 ≤ tickets q) examplePlayers) as Hnn.
  { repeat (constructor; [simpl; lia |]). constructor. }
  assert (isFinite (totalTickets examplePlayers)) as Hfin.
  { exists 400. by vm_compute. }
  split; [exact Hnn |]. split; [exact Hfin |].
  exact (weightedRandomDraw_winner_count examplePlayers 5 0 Hnn Hfin).
Defined.

(** The generator is called once per winner: after the sampler ran on a pool
    of non-negative weights whose sum is a finite number, its state is the
    state after as many calls as there are winners. *)
Theorem weightedRandomDraw_advances_once_per_winner players count h :
  Forall (λ p, 0 ≤ tickets p) players → isFinite (totalTickets players) →
  fst (weightedRandomDraw players count h)
  = stateAfter (length (snd (weightedRandomDraw players count h))) h.
Proof.
  intros Hnn Hfin.
  destruct (weightedRandomDraw_drawLoop players count h) as [rem' Hrun].
  destruct (drawLoop_count _ _ _ _ _ _ _ Hnn Hfin Hrun) as [Hlen Hstate].
  simpl in Hlen. by rewrite Hlen.
Qed.

Lemma weightedRandomDraw_advances_once_per_winner_witness :
  Forall (λ p, 0 ≤ tickets p) examplePlayers ∧
  isFinite (totalTickets examplePlayers) ∧
  fst (weightedRandomDraw examplePlayers 5 0) = stateAfter 2 0.
Proof.
  assert (Forall (λ q, 0 ≤ tickets q) examplePlayers) as Hnn.
  { repeat (constructor; [simpl; lia |]). constructor. }
  assert (isFinite (totalTickets examplePlayers)) as Hfin.
  { exists 400. by vm_compute. }
  split; [exact Hnn |]. split; [exact Hfin |].
  exact (weightedRandomDraw_advances_once_per_winner examplePlayers 5 0 Hnn Hfin).
Defined.

(** A pool of total weight zero (empty, or zero weights only) yields no
    winner and the generator is not called. *)
Theorem weightedRandomDraw_zero_total players count h :
  totalTickets players = Num 0 → weightedRandomDraw players count h = (h, []).
Proof.
  intros Hzero. unfold weightedRandomDraw. destruct count as [| count]; [done |].
  rewrite drawLoop_S, decide_True; [done | by right].
Qed.

Lemma weightedRandomDraw_zero_total_witness :
  totalTickets [mkPlayer "C" 0 0; mkPlayer "D" 50 0] = Num 0 ∧
  weightedRandomDraw [mkPlayer "C" 0 0; mkPlayer "D" 50 0] 5 7 = (7, []).
Proof.
  assert (totalTickets [mkPlayer "C" 0 0; mkPlayer "D" 50 0] = Num 0) as Hzero
    by (by vm_compute).
  split; [exact Hzero |].
  exact (weightedRandomDraw_zero_total _ 5 7 Hzero).
Defined.




Lemma exactWeight_app l1 l2 : exactWeight (l1 ++ l2) = exactWeight l1 + exactWeight l2.
Proof.
  induction l1 as [| p l1 IH]; [done |].
  cbn [app exactWeight foldr]. fold (exactWeight (l1 ++ l2)). fold (exactWeight l1). lia.
Qed.

Lemma exactWeight_nonneg rem : Forall (λ p, 0 ≤ tickets p) rem → 0 ≤ exactWeight rem.
Proof.
  induction 1 as [| p rem Hp _ IH]; [done |].
  cbn [exactWeight foldr]. fold (exactWeight rem). lia.
Qed.

Lemma exactWeight_take_mono rem a b :
  Forall (λ p, 0 ≤ tickets p) rem → (a ≤ b)%nat →
  exactWeight (take a rem) ≤ exactWeight (take b rem).
Proof.
  intros Hnn Hab.
  rewrite <- (take_drop a (take b rem)), exactWeight_app.
  rewrite take_take, Nat.min_l by done.
  assert (0 ≤ exactWeight (drop a (take b rem))); [| lia].
  apply exactWeight_nonneg, Forall_drop, Forall_take, Hnn.
Qed.

Lemma exactWeight_take_le rem k :
  Forall (λ p, 0 ≤ tickets p) rem → exactWeight (take k rem) ≤ exactWeight rem.
Proof.
  intros Hnn. rewrite <- (take_drop k rem) at 2. rewrite exactWeight_app.
  assert (0 ≤ exactWeight (drop k rem)); [| lia].
  by apply exactWeight_nonneg, Forall_drop.
Qed.

Lemma exactWeight_take_S rem j w :
  rem !! j = Some w → exactWeight (take (S j) rem) = exactWeight (take j rem) + tickets w.
Proof.
  intros Hw. rewrite (take_S_r _ _ _ Hw), exactWeight_app.
  cbn [exactWeight foldr]. lia.
Qed.

(** Below 2^53 a sum is exact, and far from the largest double. *)
Lemma overflow_exact z : Z.abs z < 2 ^ 53 → overflow z = Num z.
Proof.
  intros Hz. apply overflow_Num. rewrite round53_exact by done. split; [done |].
  assert (2 ^ 53 < 2 ^ 1024) by (apply Z.pow_lt_mono_r; lia). lia.
Qed.

Lemma sum_exact rem c :
  Forall (λ p, 0 ≤ tickets p) rem → 0 ≤ c → c + exactWeight rem < 2 ^ 53 →
  fold_left addTickets rem (Num c) = Num (c + exactWeight rem).
Proof.
  intros Hnn. revert c. induction Hnn as [| p rem Hp Hnn IH]; intros c Hc Hsmall.
  { cbn. f_equal. lia. }
  rewrite fold_left_step. cbn [exactWeight foldr] in *. fold (exactWeight rem) in *.
  pose proof (exactWeight_nonneg rem Hnn).
  change (addTickets (Num c) p) with (overflow (c + tickets p)).
  rewrite overflow_exact by lia.
  rewrite IH by lia. f_equal. lia.
Qed.

Lemma cumulativeTo_exact rem k :
  Forall (λ p, 0 ≤ tickets p) rem → exactWeight rem < 2 ^ 53 →
  cumulativeTo rem k = Num (exactWeight (take k rem)).
Proof.
  intros Hnn Hsmall. unfold cumulativeTo, totalTickets.
  pose proof (exactWeight_take_le rem k Hnn).
  rewrite sum_exact; [done | by apply Forall_take | lia | lia].
Qed.

Lemma scanFrom_inv rem (x y : number) j k :
  scanFrom rem x y j = Some k →
  ∃ i w, k = (j + i)%nat ∧ rem !! i = Some w ∧
         js_lt x (fold_left addTickets (take (S i) rem) y) = true ∧
         ∀ i', (i' < i)%nat →
               js_lt x (fold_left addTickets (take (S i') rem) y) = false.
Proof.
  revert y j. induction rem as [| p rem IH]; intros y j; [done |].
  cbn [scanFrom]. destruct (js_lt x (addTickets y p)) eqn:E.
  - intros [= <-]. exists 0%nat, p.
    split; [lia |]. split; [done |]. split; [done |]. lia.
  - intros Hk.
    destruct (IH _ _ Hk) as (i & w & -> & Hw & Hhi & Hbefore).
    exists (S i), w. split; [lia |]. split; [done |]. split; [done |].
    intros [| i'] Hi'; [done |]. apply Hbefore. lia.
Qed.

(** While the weights sum to less than 2^53, the total is their exact sum
    and the participant at position [j] is selected by exactly the tickets
    of its own interval, which starts at the sum of the weights before it
    and has its weight as width. *)
Theorem ticket_selects_by_interval rem j w t :
  Forall (λ p, 0 ≤ tickets p) rem → exactWeight rem < 2 ^ 53 →
  rem !! j = Some w → 0 ≤ t →
  totalTickets rem = Num (exactWeight rem) ∧
  (findWinner rem (Num t) = Some j
   ↔ exactWeight (take j rem) ≤ t < exactWeight (take j rem) + tickets w).
Proof.
  intros Hnn Hsmall Hw Ht.
  assert (totalTickets rem = Num (exactWeight rem)) as Htotal.
  { rewrite <- cumulativeTo_all, cumulativeTo_exact by done. by rewrite firstn_all. }
  split; [done |]. split.
  - intros Hfind.
    destruct (scanFrom_inv _ _ _ _ _ Hfind) as (i & w' & Hi & Hw' & Hhi & Hbefore).
    simpl in Hi. subst i. assert (w' = w) as -> by congruence.
    fold (totalTickets (take (S j) rem)) in Hhi. fold (cumulativeTo rem (S j)) in Hhi.
    rewrite cumulativeTo_exact, (exactWeight_take_S _ _ _ Hw) in Hhi by done.
    apply Z.ltb_lt in Hhi. split; [| done].
    destruct j as [| j]; [done |].
    specialize (Hbefore j ltac:(lia)).
    fold (totalTickets (take (S j) rem)) in Hbefore.
    fold (cumulativeTo rem (S j)) in Hbefore.
    rewrite cumulativeTo_exact in Hbefore by done. by apply Z.ltb_ge in Hbefore.
  - intros [Hlo Hhi].
    rewrite <- (exactWeight_take_S _ _ _ Hw) in Hhi.
    pose proof (exactWeight_take_le rem (S j) Hnn) as Hle.
    destruct (scanFrom_spec rem t 0 0 (exactWeight rem) Htotal Ht)
      as (i & w' & Hs & Hw' & (lo & Hlo' & Hlot) & (hi & Hhi' & Hthi) & _); [lia |].
    unfold findWinner. rewrite Hs. f_equal. simpl.
    fold (totalTickets (take i rem)) in Hlo'. fold (cumulativeTo rem i) in Hlo'.
    fold (totalTickets (take (S i) rem)) in Hhi'. fold (cumulativeTo rem (S i)) in Hhi'.
    rewrite cumulativeTo_exact in Hlo', Hhi' by done.
    injection Hlo' as <-. injection Hhi' as <-.
    destruct (decide (i < j)%nat) as [Hij | Hij].
    { pose proof (exactWeight_take_mono rem (S i) j Hnn ltac:(lia)). lia. }
    destruct (decide (j < i)%nat) as [Hji | Hji]; [| lia].
    pose proof (exactWeight_take_mono rem (S j) i Hnn ltac:(lia)). lia.
Qed.

Lemma ticket_selects_by_interval_witness :
  Forall (λ p, 0 ≤ tickets p) examplePlayers ∧ exactWeight examplePlayers < 2 ^ 53 ∧
  examplePlayers !! 1%nat = Some (mkPlayer "B" 10000 100) ∧ 0 ≤ 386 ∧
  (findWinner examplePlayers (Num 386) = Some 1%nat
   ↔ exactWeight (take 1 examplePlayers) ≤ 386
     < exactWeight (take 1 examplePlayers) + tickets (mkPlayer "B" 10000 100)).
Proof.
  assert (Forall (λ q, 0 ≤ tickets q) examplePlayers) as Hnn.
  { repeat (constructor; [simpl; lia |]). constructor. }
  assert (exactWeight examplePlayers < 2 ^ 53) as Hsmall by (by vm_compute).
  split; [exact Hnn |]. split; [exact Hsmall |]. split; [reflexivity |].
  split; [lia |].
  exact (proj2 (ticket_selects_by_interval examplePlayers 1 _ 386 Hnn Hsmall eq_refl
                  ltac:(lia))).
Defined.

End SamplerExtras.

(** ** More on the seed and the generator *)

Section GeneratorExtras.

Implicit Types a b x y t : Z.

Lemma ToUint32_land x : ToUint32 x = Z.land x (Z.ones 32).
Proof. unfold ToUint32. by rewrite Z.land_ones by lia. Qed.

Lemma ToUint32_ToInt32 x : ToUint32 (ToInt32 x) = ToUint32 x.
Proof.
  destruct (ToInt32_repr x) as [k ->]. unfold ToUint32. apply Z.mod_add. lia.
Qed.

Lemma ToUint32_small x : 0 ≤ x < 2 ^ 32 → ToUint32 x = x.
Proof. intros Hx. unfold ToUint32. by apply Z.mod_small. Qed.

Lemma ToUint32_lxor x y : ToUint32 (Z.lxor x y) = Z.lxor (ToUint32 x) (ToUint32 y).
Proof.
  rewrite !ToUint32_land. apply Z.bits_inj'. intros n Hn.
  rewrite !Z.land_spec, !Z.lxor_spec, !Z.land_spec.
  by destruct (Z.testbit x n), (Z.testbit y n), (Z.testbit (Z.ones 32) n).
Qed.

Lemma ToUint32_lor x y : ToUint32 (Z.lor x y) = Z.lor (ToUint32 x) (ToUint32 y).
Proof.
  rewrite !ToUint32_land. apply Z.bits_inj'. intros n Hn.
  rewrite !Z.land_spec, !Z.lor_spec, !Z.land_spec.
  by destruct (Z.testbit x n), (Z.testbit y n), (Z.testbit (Z.ones 32) n).
Qed.

Lemma ToUint32_js_xor a b : ToUint32 (js_xor a b) = Z.lxor (ToUint32 a) (ToUint32 b).
Proof. unfold js_xor. by rewrite ToUint32_lxor, !ToUint32_ToInt32. Qed.

Lemma ToUint32_js_or a b : ToUint32 (js_or a b) = Z.lor (ToUint32 a) (ToUint32 b).
Proof. unfold js_or. by rewrite ToUint32_lor, !ToUint32_ToInt32. Qed.

Lemma ToUint32_imul a b : ToUint32 (imul a b) = (ToUint32 a * ToUint32 b) mod 2 ^ 32.
Proof.
  unfold imul. rewrite ToUint32_ToInt32. unfold ToUint32 at 1.
  rewrite Z.mul_mod by lia. fold (ToUint32 (ToInt32 a)). fold (ToUint32 (ToInt32 b)).
  by rewrite !ToUint32_ToInt32.
Qed.

Lemma ToUint32_js_ushr a n :
  0 ≤ n < 32 → ToUint32 (js_ushr a n) = Z.shiftr (ToUint32 a) n.
Proof.
  intros Hn. unfold js_ushr. rewrite (Z.mod_small n 32) by lia.
  apply ToUint32_small. rewrite Z.shiftr_div_pow2 by lia.
  pose proof (ToUint32_range a) as Ha.
  assert (0 < 2 ^ n) by (apply Z.pow_pos_nonneg; lia).
  split; [apply Z.div_pos; lia |].
  apply Z.div_lt_upper_bound; [lia |]. nia.
Qed.

Lemma imul_range a b : - 2 ^ 31 ≤ imul a b < 2 ^ 31.
Proof. apply ToInt32_range. Qed.

Lemma ToUint32_add a b :
  ToUint32 (a + b) = (ToUint32 a + ToUint32 b) mod 2 ^ 32.
Proof. unfold ToUint32. by rewrite Z.add_mod by lia. Qed.

(** The signed operators of the closure compute the unsigned 32-bit mixing:
    the returned numerator is [mixU32] of the state reduced modulo 2^32. *)
Theorem mulberry32_mix_unsigned t : mulberry32_mix t = mixU32 (t mod 2 ^ 32).
Proof.
  unfold mulberry32_mix, mixU32. fold (ToUint32 t).
  set (t1 := imul (js_xor t (js_ushr t 15)) (js_or t 1)).
  assert (ToUint32 t1
          = (Z.lxor (ToUint32 t) (Z.shiftr (ToUint32 t) 15) * Z.lor (ToUint32 t) 1)
            mod 2 ^ 32) as H1.
  { unfold t1. rewrite ToUint32_imul, ToUint32_js_xor, ToUint32_js_or.
    by rewrite ToUint32_js_ushr by lia. }
  rewrite <- H1.
  set (i2 := imul (js_xor t1 (js_ushr t1 7)) (js_or t1 61)).
  assert (ToUint32 i2
          = (Z.lxor (ToUint32 t1) (Z.shiftr (ToUint32 t1) 7) * Z.lor (ToUint32 t1) 61)
            mod 2 ^ 32) as H2.
  { unfold i2. rewrite ToUint32_imul, ToUint32_js_xor, ToUint32_js_or.
    by rewrite ToUint32_js_ushr by lia. }
  rewrite <- H2.
  assert (num_add t1 i2 = t1 + i2) as ->.
  { unfold num_add. apply round53_exact.
    pose proof (imul_range (js_xor t (js_ushr t 15)) (js_or t 1)).
    pose proof (imul_range (js_xor t1 (js_ushr t1 7)) (js_or t1 61)).
    fold t1 in H. fold i2 in H0. lia. }
  rewrite <- ToUint32_add, <- ToUint32_js_xor.
  rewrite ToUint32_js_xor, ToUint32_js_ushr by lia. done.
Qed.

Lemma polyHash_from codes a :
  fold_left (λ acc c, acc * 31 + c) codes a
  = a * 31 ^ Z.of_nat (length codes) + polyHash codes.
Proof.
  unfold polyHash. revert a. induction codes as [| c codes IH]; intros a.
  { cbn. lia. }
  rewrite !fold_left_step, IH, (IH (0 * 31 + c)).
  cbn [length]. rewrite Nat2Z.inj_succ, Z.pow_succ_r by lia. lia.
Qed.

Lemma wrapped_fold_is_wrapped_poly codes a :
  fold_left (λ acc c, ToInt32 (acc * 31 + c)) codes (ToInt32 a)
  = ToInt32 (fold_left (λ acc c, acc * 31 + c) codes a).
Proof.
  revert a. induction codes as [| c codes IH]; intros a; [done |].
  rewrite !fold_left_step, <- IH. f_equal.
  destruct (ToInt32_repr a) as [k ->].
  replace ((a + k * 2 ^ 32) * 31 + c) with (a * 31 + c + (k * 31) * 2 ^ 32) by lia.
  apply ToInt32_wrap.
Qed.

Lemma hashCodes_polyHash (codes : list Z) :
  Forall (λ c, 0 ≤ c < 65536) codes → hashCodes codes = ToInt32 (polyHash codes).
Proof.
  intros Hcodes. unfold hashCodes.
  destruct (fold_hashStep_spec codes 0 ltac:(lia) Hcodes) as [-> _].
  unfold polyHash. by rewrite <- wrapped_fold_is_wrapped_poly.
Qed.

(** The derived seed is the polynomial hash
    [c0 * 31^(n-1) + ... + c(n-1)] wrapped to a signed 32-bit integer. *)
Theorem seed_is_wrapped_polynomial (codes : list Z) :
  Forall (λ c, 0 ≤ c < 65536) codes → hashCodes codes = ToInt32 (polyHash codes).
Proof. apply hashCodes_polyHash. Qed.

Lemma seed_is_wrapped_polynomial_witness :
  Forall (λ c, 0 ≤ c < 65536) (charCodes "test") ∧
  hashCodes (charCodes "test") = ToInt32 (polyHash (charCodes "test")).
Proof.
  assert (Forall (λ c, 0 ≤ c < 65536) (charCodes "test")) as Hcodes.
  { cbn. repeat (constructor; [lia |]). constructor. }
  split; [exact Hcodes |].
  exact (seed_is_wrapped_polynomial (charCodes "test") Hcodes).
Defined.

Lemma ToInt32_eq_divide x y : ToInt32 x = ToInt32 y → (2 ^ 32 | x - y).
Proof.
  destruct (ToInt32_repr x) as [k ->]. destruct (ToInt32_repr y) as [k' ->].
  intros Heq. exists (k' - k). lia.
Qed.

Lemma pow2_coprime_pow31 (n : Z) : 0 ≤ n → Z.gcd (2 ^ 32) (31 ^ n) = 1.
Proof. intros Hn. by apply Z.coprime_pow_r. Qed.

(** Changing one character of the seed string, anywhere in it, changes the
    derived 32-bit seed. *)
Theorem seed_changes_with_any_character (pre post : list Z) (c1 c2 : Z) :
  Forall (λ c, 0 ≤ c < 65536) pre → Forall (λ c, 0 ≤ c < 65536) post →
  0 ≤ c1 < 65536 → 0 ≤ c2 < 65536 → c1 ≠ c2 →
  hashCodes (pre ++ c1 :: post) ≠ hashCodes (pre ++ c2 :: post).
Proof.
  intros Hpre Hpost Hc1 Hc2 Hne Heq.
  rewrite !hashCodes_polyHash in Heq
    by (apply Forall_app; split; [done | by constructor]).
  apply ToInt32_eq_divide in Heq.
  unfold polyHash in Heq. rewrite !fold_left_app, !fold_left_step in Heq.
  rewrite !(polyHash_from post) in Heq.
  set (n := Z.of_nat (length post)) in *.
  set (P := fold_left (λ acc c, acc * 31 + c) pre 0) in *.
  replace ((P * 31 + c1) * 31 ^ n + polyHash post
           - ((P * 31 + c2) * 31 ^ n + polyHash post))
    with (31 ^ n * (c1 - c2)) in Heq by lia.
  apply Z.gauss in Heq; [| apply pow2_coprime_pow31; lia].
  destruct Heq as [z Hz]. lia.
Qed.

Lemma seed_changes_with_any_character_witness :
  Forall (λ c, 0 ≤ c < 65536) (charCodes "te") ∧
  Forall (λ c, 0 ≤ c < 65536) (charCodes "t") ∧
  0 ≤ 115 < 65536 ∧ 0 ≤ 120 < 65536 ∧ 115 ≠ 120 ∧
  createSeededRandom "test" ≠ createSeededRandom "text".
Proof.
  assert (Forall (λ c, 0 ≤ c < 65536) (charCodes "te")) as Hpre.
  { cbn. repeat (constructor; [lia |]). constructor. }
  assert (Forall (λ c, 0 ≤ c < 65536) (charCodes "t")) as Hpost.
  { cbn. repeat (constructor; [lia |]). constructor. }
  split; [exact Hpre |]. split; [exact Hpost |].
  split; [lia |]. split; [lia |]. split; [lia |].
  exact (seed_changes_with_any_character (charCodes "te") (charCodes "t") 115 120
           Hpre Hpost ltac:(lia) ltac:(lia) ltac:(lia)).
Defined.

End GeneratorExtras.

(** ** More on the tier loop *)

Section DrawExtras.

Implicit Types (t : PrizeTier) (st : DrawState) (p w : PlayerEntry).
Implicit Types (ws elig players : list PlayerEntry) (tiers : list PrizeTier).

Lemma conductDraw_eq players seed :
  conductDraw players seed = conductDrawWith PRIZE_TIERS players seed.
Proof. unfold conductDraw. reflexivity. Qed.

Lemma tierWinners_eq tiers players seed :
  tierWinners tiers players seed = ds_drawn (conductDrawState tiers players seed).
Proof. unfold tierWinners. reflexivity. Qed.

(** The draw state in which [conductDraw] enters the tier loop. *)
Lemma conductDrawState_unfold tiers players seed :
  conductDrawState tiers players seed
  = tierLoop tiers (mkDrawState (createSeededRandom seed) ∅ (positive players) []).
Proof. done. Qed.

Lemma recorded_step done st t : recorded done st → recorded (done ++ [t]) (tierStep st t).
Proof.
  intros (Hlen & Hpool & Hcross & Hrec).
  rewrite tierStep_eq. unfold recorded. cbn [ds_drawn ds_eligible ds_results].
  set (ws := snd (weightedRandomDraw (ds_eligible st) (winners t) (ds_hashValue st))).
  assert (∀ a, a ∈ address <$> ws → a ∈ address <$> ds_eligible st) as Hsub.
  { intros a (w & -> & Hw)%list_elem_of_fmap.
    apply list_elem_of_fmap_2. by eapply weightedRandomDraw_subset. }
  assert (∀ i wi a, ds_drawn st !! i = Some wi → a ∈ address <$> wi →
                    a ∉ address <$> ws) as Hold.
  { intros i wi a Hi (w & -> & Hw)%list_elem_of_fmap Hin.
    apply (Hpool (address w)); [| by apply Hsub].
    apply list_elem_of_fmap_2. by eapply elem_of_concat_lookup. }
  split; [by rewrite !length_app, Hlen |]. split; [| split].
  - intros a. rewrite concat_app, fmap_app, elem_of_app. simpl. rewrite app_nil_r.
    intros [Ha | Ha] (p & -> & Hp)%list_elem_of_fmap;
      apply list_elem_of_filter in Hp as [Hout Hp].
    + eapply Hpool; [exact Ha |]. by apply list_elem_of_fmap_2.
    + done.
  - intros i j wi wj a Hij.
    rewrite !lookup_snoc_Some. intros [[_ Hi] | [-> <-]] [[_ Hj] | [-> <-]] Ha.
    + by eapply Hcross.
    + by eapply Hold.
    + intros Ha'. by eapply Hold.
    + done.
  - intros i t' ws' w. rewrite !lookup_snoc_Some, recordWinners_lookup.
    intros [[Hi Ht'] | [-> <-]] [[Hi' Hws'] | [Hi' <-]] Hw; try lia.
    + rewrite decide_False; [by eapply Hrec |].
      eapply Hold; [exact Hws' |]. by apply list_elem_of_fmap_2.
    + rewrite decide_True; [done |]. by apply list_elem_of_fmap_2.
Qed.

Lemma recorded_loop tiers done st :
  recorded done st → recorded (done ++ tiers) (tierLoop tiers st).
Proof.
  revert done st. induction tiers as [| t tiers IH]; intros done st Hst.
  { by rewrite app_nil_r. }
  cbn [tierLoop fold_left]. fold (tierLoop tiers (tierStep st t)).
  rewrite cons_middle, app_assoc. by apply IH, recorded_step.
Qed.

Lemma recorded_draw tiers players seed :
  recorded tiers (conductDrawState tiers players seed).
Proof.
  apply (recorded_loop tiers []). repeat split; try done.
  intros a Ha. by apply elem_of_nil in Ha.
Qed.

(** For every population, also one with repeated addresses: no address wins
    in two different tiers. *)
Theorem no_address_wins_in_two_tiers tiers players seed i j wi wj a :
  i ≠ j →
  tierWinners tiers players seed !! i = Some wi →
  tierWinners tiers players seed !! j = Some wj →
  a ∈ address <$> wi → a ∉ address <$> wj.
Proof.
  destruct (recorded_draw tiers players seed) as (_ & _ & Hcross & _).
  apply Hcross.
Qed.

(** In [repeatedPlayers] the first entry of address A wins in the first
    tier; the second entry of that address is filtered out of the pool, and
    the second tier draws the two participants that are left. *)
Lemma no_address_wins_in_two_tiers_witness :
  0%nat ≠ 1%nat ∧
  tierWinners PRIZE_TIERS repeatedPlayers "test" !! 0%nat
  = Some [mkPlayer "G" 100 1; mkPlayer "F" 100 1; mkPlayer "E" 100 1;
          mkPlayer "A" 100 1; mkPlayer "C" 100 1] ∧
  tierWinners PRIZE_TIERS repeatedPlayers "test" !! 1%nat
  = Some [mkPlayer "D" 100 1; mkPlayer "B" 100 1] ∧
  "A" ∈ address <$> [mkPlayer "G" 100 1; mkPlayer "F" 100 1; mkPlayer "E" 100 1;
                     mkPlayer "A" 100 1; mkPlayer "C" 100 1] ∧
  "A" ∉ address <$> [mkPlayer "D" 100 1; mkPlayer "B" 100 1].
Proof.
  assert (tierWinners PRIZE_TIERS repeatedPlayers "test" !! 0%nat
          = Some [mkPlayer "G" 100 1; mkPlayer "F" 100 1; mkPlayer "E" 100 1;
                  mkPlayer "A" 100 1; mkPlayer "C" 100 1]) as H0 by (by vm_compute).
  assert (tierWinners PRIZE_TIERS repeatedPlayers "test" !! 1%nat
          = Some [mkPlayer "D" 100 1; mkPlayer "B" 100 1]) as H1 by (by vm_compute).
  assert ("A" ∈ address <$> [mkPlayer "G" 100 1; mkPlayer "F" 100 1; mkPlayer "E" 100 1;
                             mkPlayer "A" 100 1; mkPlayer "C" 100 1]) as Ha.
  { apply (bool_decide_unpack _). by vm_compute. }
  split; [lia |]. split; [exact H0 |]. split; [exact H1 |]. split; [exact Ha |].
  exact (no_address_wins_in_two_tiers PRIZE_TIERS repeatedPlayers "test" 0 1 _ _ "A"
           ltac:(lia) H0 H1 Ha).
Defined.

(** The map built by the draw gives every winner of a tier that tier's name
    and amount, and there is one [winners] array per tier. *)
Theorem winners_are_recorded_with_their_tier tiers players seed i t ws w :
  tiers !! i = Some t → tierWinners tiers players seed !! i = Some ws → w ∈ ws →
  conductDrawWith tiers players seed !! address w
  = Some (mkTierResult (name t) (initPerWinner t)).
Proof.
  destruct (recorded_draw tiers players seed) as (_ & _ & _ & Hrec).
  apply Hrec.
Qed.

Lemma winners_are_recorded_with_their_tier_witness :
  PRIZE_TIERS !! 0%nat = Some (mkTier "Grand Prize" 5 2500) ∧
  conductDraw examplePlayers "test" !! "A" = Some (mkTierResult "Grand Prize" 2500).
Proof.
  split; [reflexivity |].
  exact (winners_are_recorded_with_their_tier PRIZE_TIERS examplePlayers "test" 0
           (mkTier "Grand Prize" 5 2500)
           [mkPlayer "B" 10000 100; mkPlayer "A" 30000 300] (mkPlayer "A" 30000 300)
           eq_refl ltac:(by vm_compute) ltac:(right; left)).
Defined.

Lemma results_keys_hold_tickets tiers players seed a :
  is_Some (conductDrawWith tiers players seed !! a) →
  ∃ p, p ∈ players ∧ address p = a ∧ 0 < tickets p.
Proof.
  intros Hsome.
  apply (tierLoop_results_dom tiers
           (mkDrawState (createSeededRandom seed) ∅ (positive players) [])) in Hsome.
  2:{ intros a'. simpl. rewrite lookup_empty, elem_of_nil.
      split; [by intros [? ?] | done]. }
  apply list_elem_of_fmap in Hsome as (w & -> & Hw).
  pose proof (tierLoop_drawn_from (λ q, q ∈ players ∧ 0 < tickets q) tiers
    (mkDrawState (createSeededRandom seed) ∅ (positive players) [])) as Hall.
  assert (Forall (λ q, q ∈ players ∧ 0 < tickets q) (positive players)) as Helig.
  { apply Forall_forall. intros q Hq. apply list_elem_of_filter in Hq. tauto. }
  specialize (Hall Helig (Forall_nil_2 _)).
  exists w. rewrite Forall_forall in Hall.
  apply list_elem_of_In, in_concat in Hw as (ws & Hws & Hw).
  apply list_elem_of_In in Hws, Hw.
  specialize (Hall ws Hws). rewrite Forall_forall in Hall.
  destruct (Hall w Hw). done.
Qed.

(** Every key of the returned map is the address of a participant of the
    population who holds at least one ticket. *)
Theorem winners_hold_tickets tiers players seed a :
  is_Some (conductDrawWith tiers players seed !! a) →
  ∃ p, p ∈ players ∧ address p = a ∧ 0 < tickets p.
Proof. apply results_keys_hold_tickets. Qed.

Lemma winners_hold_tickets_witness :
  is_Some (conductDrawWith PRIZE_TIERS examplePlayers "test" !! "A") ∧
  ∃ p, p ∈ examplePlayers ∧ address p = "A" ∧ 0 < tickets p.
Proof.
  assert (is_Some (conductDrawWith PRIZE_TIERS examplePlayers "test" !! "A")) as Hsome.
  { apply (bool_decide_unpack _). by vm_compute. }
  split; [exact Hsome |].
  exact (winners_hold_tickets PRIZE_TIERS examplePlayers "test" "A" Hsome).
Defined.

Lemma filledInOrder_full eligible counts :
  (sum_list counts ≤ eligible)%nat → filledInOrder eligible counts = counts.
Proof.
  revert eligible. induction counts as [| c counts IH]; intros eligible Hle; [done |].
  simpl in Hle. cbn [filledInOrder]. rewrite IH by lia. f_equal. lia.
Qed.

Lemma length_concat_sum {A} (ls : list (list A)) :
  length (concat ls) = sum_list (length <$> ls).
Proof.
  induction ls as [| l ls IH]; [done |].
  simpl. rewrite length_app, IH. done.
Qed.

Lemma results_size tiers players seed :
  NoDup (address <$> players) →
  size (conductDrawWith tiers players seed)
  = length (concat (tierWinners tiers players seed)).
Proof.
  intros Hnd.
  assert (NoDup (address <$> concat (tierWinners tiers players seed))) as Hdrawn.
  { unfold tierWinners, conductDrawState.
    pose proof (tierLoop_NoDup tiers
      (mkDrawState (createSeededRandom seed) ∅ (positive players) [])
      (eligible_NoDup players Hnd)) as Hinv.
    rewrite fmap_app in Hinv. by apply NoDup_app in Hinv as (? & _ & _). }
  rewrite <- size_dom, <- (length_fmap address), <- (size_list_to_set (C := gset string))
    by done.
  f_equal. apply set_eq. intros a.
  rewrite elem_of_dom, elem_of_list_to_set.
  apply (tierLoop_results_dom tiers
           (mkDrawState (createSeededRandom seed) ∅ (positive players) [])).
  intros a'. simpl. rewrite lookup_empty, elem_of_nil. split; [by intros [? ?] | done].
Qed.

Lemma awarded_filledInOrder tiers players seed :
  NoDup (address <$> players) → isFinite (totalTickets (positive players)) →
  length <$> tierWinners tiers players seed
  = filledInOrder (length (positive players)) (winners <$> tiers).
Proof.
  intros Hnd Hfin. unfold tierWinners, conductDrawState.
  rewrite tierLoop_filledInOrder; [done | | |]; cbn [ds_eligible].
  - by apply eligible_NoDup.
  - apply eligible_positive.
  - exact Hfin.
Qed.

Lemma results_size_min tiers players seed :
  NoDup (address <$> players) → isFinite (totalTickets (positive players)) →
  size (conductDrawWith tiers players seed)
  = (length (positive players) `min` sum_list (winners <$> tiers))%nat.
Proof.
  intros Hnd Hfin.
  by rewrite results_size, length_concat_sum, awarded_filledInOrder, filledInOrder_sum.
Qed.

(** With distinct addresses and eligible weights that sum to a finite number
    the draw awards min(eligible participants, configured winners) prizes,
    and when the eligible participants are at least as many as the
    configured winners every tier gets its full count. *)
Theorem draw_awards_min_of_eligible_and_configured tiers players seed :
  NoDup (address <$> players) → isFinite (totalTickets (positive players)) →
  size (conductDrawWith tiers players seed)
  = (length (positive players) `min` sum_list (winners <$> tiers))%nat ∧
  ((sum_list (winners <$> tiers) ≤ length (positive players))%nat →
   length <$> tierWinners tiers players seed = winners <$> tiers).
Proof.
  intros Hnd Hfin. split; [by apply results_size_min |].
  intros Hfull. by rewrite awarded_filledInOrder, filledInOrder_full.
Qed.

Lemma draw_awards_min_of_eligible_and_configured_witness :
  NoDup (address <$> examplePlayers) ∧
  isFinite (totalTickets (positive examplePlayers)) ∧
  size (conductDrawWith PRIZE_TIERS examplePlayers "test")
  = (length (positive examplePlayers) `min` sum_list (winners <$> PRIZE_TIERS))%nat.
Proof.
  assert (NoDup (address <$> examplePlayers)) as Hnd.
  { apply (bool_decide_unpack _). by vm_compute. }
  assert (isFinite (totalTickets (positive examplePlayers))) as Hfin.
  { exists 400. by vm_compute. }
  split; [exact Hnd |]. split; [exact Hfin |].
  exact (proj1 (draw_awards_min_of_eligible_and_configured PRIZE_TIERS examplePlayers
                  "test" Hnd Hfin)).
Defined.

(** No tier gets more winners than it is configured for. *)
Lemma tierLoop_drawn_at_most tiers done st :
  Forall2 (λ t ws, (length ws ≤ winners t)%nat) done (ds_drawn st) →
  Forall2 (λ t ws, (length ws ≤ winners t)%nat) (done ++ tiers)
    (ds_drawn (tierLoop tiers st)).
Proof.
  revert done st. induction tiers as [| t tiers IH]; intros done st Hst.
  { by rewrite app_nil_r. }
  cbn [tierLoop fold_left]. fold (tierLoop tiers (tierStep st t)).
  rewrite cons_middle, app_assoc. apply IH.
  rewrite tierStep_eq. cbn [ds_drawn].
  apply Forall2_app; [done |]. apply Forall2_cons; split; [| constructor].
  destruct (weightedRandomDraw_drawLoop (ds_eligible st) (winners t) (ds_hashValue st))
    as [rem' Hrun].
  apply drawLoop_at_most in Hrun. simpl in Hrun. lia.
Qed.

Lemma drawn_at_most tiers players seed :
  Forall2 (λ t ws, (length ws ≤ winners t)%nat) tiers (tierWinners tiers players seed).
Proof.
  rewrite tierWinners_eq, conductDrawState_unfold.
  apply (tierLoop_drawn_at_most tiers []). constructor.
Qed.

Lemma stateAfter_add a b h : stateAfter (a + b) h = stateAfter b (stateAfter a h).
Proof.
  revert h. induction a as [| a IH]; intros h; [done |].
  cbn [Nat.add stateAfter]. apply IH.
Qed.

Lemma tierLoop_calls tiers st h0 :
  Forall (λ p, 0 < tickets p) (ds_eligible st) →
  isFinite (totalTickets (ds_eligible st)) →
  ds_hashValue st = stateAfter (length (concat (ds_drawn st))) h0 →
  ds_hashValue (tierLoop tiers st)
  = stateAfter (length (concat (ds_drawn (tierLoop tiers st)))) h0.
Proof.
  revert st. induction tiers as [| t tiers IH]; intros st Hpos Hfin Hst; [done |].
  cbn [tierLoop fold_left]. fold (tierLoop tiers (tierStep st t)).
  apply IH; [by apply tierStep_eligible_Forall | by apply tierStep_eligible_finite |].
  rewrite tierStep_eq. cbn [ds_hashValue ds_drawn].
  rewrite concat_app, length_app, stateAfter_add, <- Hst. simpl concat.
  rewrite app_nil_r.
  destruct (weightedRandomDraw_drawLoop (ds_eligible st) (winners t) (ds_hashValue st))
    as [rem' Hrun].
  assert (Forall (λ p, 0 ≤ tickets p) (ds_eligible st)) as Hnn.
  { eapply Forall_impl; [exact Hpos |]. simpl. lia. }
  destruct (drawLoop_count _ _ _ _ _ _ _ Hnn Hfin Hrun) as [Hlen Hstate].
  simpl in Hlen. by rewrite Hlen.
Qed.

(** When the eligible weights sum to a finite number, the whole draw calls
    the generator exactly once per winner: the state left behind is the seed
    advanced as many times as prizes were awarded. *)
Theorem draw_advances_once_per_winner tiers players seed :
  isFinite (totalTickets (positive players)) →
  ds_hashValue (conductDrawState tiers players seed)
  = stateAfter (length (concat (tierWinners tiers players seed)))
      (createSeededRandom seed).
Proof.
  intros Hfin. apply tierLoop_calls; [apply eligible_positive | exact Hfin | done].
Qed.

Lemma draw_advances_once_per_winner_witness :
  isFinite (totalTickets (positive examplePlayers)) ∧
  ds_hashValue (conductDrawState PRIZE_TIERS examplePlayers "test")
  = stateAfter 2 (createSeededRandom "test").
Proof.
  assert (isFinite (totalTickets (positive examplePlayers))) as Hfin.
  { exists 400. by vm_compute. }
  split; [exact Hfin |].
  exact (draw_advances_once_per_winner PRIZE_TIERS examplePlayers "test" Hfin).
Defined.

(** A population with no participant of positive weight (an empty one, or
    zero tickets throughout): the draw returns the empty map, every tier's
    [winners] is empty and the generator is never called. *)
Theorem draw_without_eligible tiers players seed :
  Forall (λ p, tickets p ≤ 0) players →
  conductDrawWith tiers players seed = ∅ ∧
  Forall (λ ws, ws = []) (tierWinners tiers players seed) ∧
  ds_hashValue (conductDrawState tiers players seed) = createSeededRandom seed.
Proof.
  intros Hnone.
  assert (positive players = []) as Hempty.
  { apply filter_none. eapply Forall_impl; [exact Hnone |]. simpl. lia. }
  assert (Forall (λ ws, ws = []) (tierWinners tiers players seed)) as Hws.
  { pose proof (tierLoop_drawn_from (λ _, False) tiers
      (mkDrawState (createSeededRandom seed) ∅ (positive players) [])) as Hall.
    cbn [ds_eligible ds_drawn] in Hall. rewrite Hempty in Hall.
    specialize (Hall (Forall_nil_2 _) (Forall_nil_2 _)).
    unfold tierWinners. rewrite conductDrawState_unfold, Hempty.
    eapply Forall_impl; [exact Hall |]. intros [| w ws] Hf; [done |].
    by apply Forall_cons in Hf as [[] _]. }
  split; [| split; [done |]].
  - apply map_empty. intros a.
    destruct (conductDrawWith tiers players seed !! a) as [r |] eqn:Hr; [| done].
    destruct (results_keys_hold_tickets tiers players seed a) as (p & Hp & _ & Hpos);
      [by exists r |].
    eapply Forall_forall in Hnone; [| exact Hp]. simpl in Hnone. lia.
  - assert (concat (tierWinners tiers players seed) = []) as Hnil.
    { induction Hws as [| ws l -> _ IH]; [done | done]. }
    unfold tierWinners in Hnil. rewrite conductDrawState_unfold in Hnil |- *.
    rewrite (tierLoop_calls tiers
               (mkDrawState (createSeededRandom seed) ∅ (positive players) [])
               (createSeededRandom seed));
      [| apply eligible_positive | cbn [ds_eligible]; rewrite Hempty; by exists 0 | done].
    by rewrite Hnil.
Qed.

Lemma draw_without_eligible_witness :
  Forall (λ p, tickets p ≤ 0) [mkPlayer "C" 0 0; mkPlayer "D" 50 0] ∧
  conductDrawWith PRIZE_TIERS [mkPlayer "C" 0 0; mkPlayer "D" 50 0] "test" = ∅.
Proof.
  assert (Forall (λ p, tickets p ≤ 0) [mkPlayer "C" 0 0; mkPlayer "D" 50 0]) as Hnone.
  { repeat (constructor; [simpl; lia |]). constructor. }
  split; [exact Hnone |].
  exact (proj1 (draw_without_eligible PRIZE_TIERS _ "test" Hnone)).
Defined.

Lemma drawLoop_sublist togo h ws rem h' ws' rem' :
  drawLoop togo h ws rem = (h', ws', rem') → rem' `sublist_of` rem.
Proof.
  revert h ws rem. induction togo as [| togo IH]; intros h ws rem.
  { simpl. by intros [= <- <- <-]. }
  rewrite drawLoop_S. case_decide.
  { by intros [= <- <- <-]. }
  destruct (findWinner _ _) as [j |]; [| apply IH].
  destruct (rem !! j) as [w |]; [| apply IH].
  intros Hrun%IH. etrans; [exact Hrun | apply sublist_delete].
Qed.

Lemma tierLoop_eligible_sublist tiers st :
  ds_eligible (tierLoop tiers st) `sublist_of` ds_eligible st.
Proof.
  revert st. induction tiers as [| t tiers IH]; intros st; [done |].
  cbn [tierLoop fold_left]. fold (tierLoop tiers (tierStep st t)).
  etrans; [apply IH | apply tierStep_eligible_sublist].
Qed.

(** Removing winners never reorders the pool: what the sampler leaves in
    [remaining], and what the tier loop leaves in [eligiblePlayers], are the
    players that are left, in the order of the population. *)
Theorem pools_keep_population_order :
  (∀ togo h ws rem h' ws' rem',
     drawLoop togo h ws rem = (h', ws', rem') → rem' `sublist_of` rem) ∧
  (∀ tiers players seed,
     ds_eligible (conductDrawState tiers players seed) `sublist_of` players).
Proof.
  split; [apply drawLoop_sublist |].
  intros tiers players seed. rewrite conductDrawState_unfold.
  etrans; [apply tierLoop_eligible_sublist |]. apply sublist_filter.
Qed.

End DrawExtras.

(** ** More on the output table *)

Section OutputExtras.

Implicit Types (x y : DrawResult) (l : list DrawResult) (p w : PlayerEntry).
Implicit Types (results : gmap string TierResult) (players : list PlayerEntry).

Lemma insertRow_split x l :
  ∃ l1 l2, l = l1 ++ l2 ∧ insertRow x l = l1 ++ x :: l2 ∧
           Forall (λ y, ¬ rowBefore x y) l1.
Proof.
  induction l as [| y l IH].
  { exists [], []. by repeat split. }
  destruct (insertRow_cases x y l) as [[_ ->] | (_ & Hn & ->)].
  - exists [], (y :: l). by repeat split.
  - destruct IH as (l1 & l2 & -> & -> & Hall).
    exists (y :: l1), l2. repeat split; try done. by constructor.
Qed.

Lemma insertRow_stable x l (amt tk : Z) :
  filter (λ y, init_won y = amt ∧ r_tickets y = tk) (insertRow x l)
  = filter (λ y, init_won y = amt ∧ r_tickets y = tk) (x :: l).
Proof.
  destruct (insertRow_split x l) as (l1 & l2 & -> & -> & Hall).
  rewrite filter_app, !filter_cons, filter_app.
  case_decide as Hx; [| done].
  rewrite (filter_none _ l1); [done |].
  eapply Forall_impl; [exact Hall |]. intros y Hn [Hy1 Hy2]. apply Hn.
  unfold rowBefore. lia.
Qed.

(** The sort is stable: rows with the same amount and the same tickets keep
    the order their players have in the population. *)
Theorem generateOutput_keeps_order_of_ties players results (amt tk : Z) :
  filter (λ y, init_won y = amt ∧ r_tickets y = tk) (generateOutput players results)
  = filter (λ y, init_won y = amt ∧ r_tickets y = tk) (outputRow results <$> players).
Proof.
  unfold generateOutput. induction (outputRow results <$> players) as [| x l IH]; [done |].
  cbn [sortRows foldr]. fold (sortRows l).
  rewrite insertRow_stable, !filter_cons, IH. done.
Qed.

(** A player whose address is not in the map gets the row with the empty
    tier and amount 0; a player whose address is in the map gets that entry's
    tier and amount; the other three columns are the player's. *)
Theorem generateOutput_row_of_player players results p :
  p ∈ players →
  outputRow results p ∈ generateOutput players results ∧
  (results !! address p = None →
   outputRow results p = mkResult (address p) (initSpent p) (tickets p) "" 0) ∧
  (∀ r, results !! address p = Some r →
        outputRow results p
        = mkResult (address p) (initSpent p) (tickets p) (tier r) (amount r)).
Proof.
  intros Hp. split; [| split].
  - unfold generateOutput. rewrite sortRows_Permutation. by apply list_elem_of_fmap_2.
  - intros Hnone. unfold outputRow. by rewrite Hnone.
  - intros r Hr. unfold outputRow. by rewrite Hr.
Qed.

Lemma generateOutput_row_of_player_witness :
  mkPlayer "C" 0 0 ∈ examplePlayers ∧
  mkResult "C" 0 0 "" 0 ∈ generateOutput examplePlayers (conductDraw examplePlayers "test").
Proof.
  assert (mkPlayer "C" 0 0 ∈ examplePlayers) as Hp by (do 2 right; left).
  split; [exact Hp |].
  exact (proj1 (generateOutput_row_of_player examplePlayers
                  (conductDraw examplePlayers "test") (mkPlayer "C" 0 0) Hp)).
Defined.

Lemma winner_rows_count players results :
  NoDup (address <$> players) →
  (∀ a, is_Some (results !! a) → a ∈ address <$> players) →
  map_Forall (λ _ r, 0 < amount r) results →
  length (filter (λ x, 0 < init_won x) (generateOutput players results)) = size results.
Proof.
  intros Hnd Hdom Hpos. unfold generateOutput.
  rewrite (filter_Permutation _ _ _ (sortRows_Permutation _)).
  rewrite (filter_fmap_iff (outputRow results) _ (λ p, is_Some (results !! address p))).
  2:{ intros p. unfold outputRow. simpl.
      destruct (results !! address p) as [r |] eqn:Hr; simpl.
      - pose proof (Hpos _ _ Hr). simpl in *. split; [eauto | done].
      - split; [lia | by intros [? ?]]. }
  rewrite length_fmap, <- (length_fmap address), <- size_dom.
  rewrite <- (size_list_to_set (C := gset string)).
  2:{ apply (sublist_NoDup _ (address <$> players)); [done |].
      apply fmap_sublist, sublist_filter. }
  f_equal. apply set_eq. intros a.
  rewrite elem_of_list_to_set, elem_of_dom, list_elem_of_fmap. split.
  - intros (p & -> & Hp). by apply list_elem_of_filter in Hp as [? _].
  - intros Hsome. pose proof (Hdom a Hsome) as Ha.
    apply list_elem_of_fmap in Ha as (p & -> & Hp).
    exists p. split; [done |]. by apply list_elem_of_filter.
Qed.

(** The table [main] writes has one row per player; with distinct addresses
    and eligible weights that sum to a finite number, the rows that carry a
    prize are min(eligible participants, 75), 75 being the winners the three
    tiers are configured for. *)
Theorem mainOutput_winner_rows players seed :
  NoDup (address <$> players) → isFinite (totalTickets (positive players)) →
  length (mainOutput players seed) = length players ∧
  length (filter (λ x, 0 < init_won x) (mainOutput players seed))
  = (length (positive players) `min` 75)%nat.
Proof.
  intros Hnd Hfin. unfold mainOutput. split.
  { unfold generateOutput. by rewrite sortRows_Permutation, length_fmap. }
  rewrite winner_rows_count; [| done | |].
  - by rewrite conductDraw_eq, results_size_min.
  - intros a Hsome. rewrite conductDraw_eq in Hsome.
    apply results_keys_hold_tickets in Hsome as (p & Hp & <- & _).
    by apply list_elem_of_fmap_2.
  - apply conductDraw_amounts_positive.
Qed.

Lemma mainOutput_winner_rows_witness :
  NoDup (address <$> examplePlayers) ∧
  isFinite (totalTickets (positive examplePlayers)) ∧
  length (filter (λ x, 0 < init_won x) (mainOutput examplePlayers "test")) = 2%nat.
Proof.
  assert (NoDup (address <$> examplePlayers)) as Hnd.
  { apply (bool_decide_unpack _). by vm_compute. }
  assert (isFinite (totalTickets (positive examplePlayers))) as Hfin.
  { exists 400. by vm_compute. }
  split; [exact Hnd |]. split; [exact Hfin |].
  exact (proj2 (mainOutput_winner_rows examplePlayers "test" Hnd Hfin)).
Defined.

End OutputExtras.

(** ** The summary *)

Section SummaryExtras.

Implicit Types (t : PrizeTier) (p w : PlayerEntry) (a : string) (r : TierResult).
Implicit Types (tiers : list PrizeTier) (players ws : list PlayerEntry).
Implicit Types (entries es : list (string * TierResult)).

Lemma elem_of_concat_inv {A} (ls : list (list A)) x :
  x ∈ concat ls → ∃ i l, ls !! i = Some l ∧ x ∈ l.
Proof.
  induction ls as [| l ls IH]; simpl; [by intros ?%elem_of_nil |].
  rewrite elem_of_app. intros [Hx | Hx].
  - by exists 0%nat, l.
  - destruct (IH Hx) as (i & l' & Hi & Hl'). by exists (S i), l'.
Qed.

Lemma NoDup_fmap_concat_lookup {A B} (f : A → B) (ls : list (list A)) i l :
  NoDup (f <$> concat ls) → ls !! i = Some l → NoDup (f <$> l).
Proof.
  revert i. induction ls as [| l' ls IH]; intros i Hnd Hi; [done |].
  simpl in Hnd. rewrite fmap_app in Hnd. apply NoDup_app in Hnd as (Hl' & _ & Hls).
  destruct i as [| i]; simplify_eq/=; eauto.
Qed.

(** An entry of the map carries the name of tier [i] exactly when its key
    was drawn in tier [i]. *)
Lemma entry_of_tier tiers players seed i t ws a r :
  NoDup (name <$> tiers) →
  tiers !! i = Some t → tierWinners tiers players seed !! i = Some ws →
  conductDrawWith tiers players seed !! a = Some r →
  tier r = name t → a ∈ address <$> ws ∧ amount r = initPerWinner t.
Proof.
  intros Hnames Ht Hws Hr Htier.
  destruct (recorded_draw tiers players seed) as (Hlen & _ & _ & Hrec).
  assert (a ∈ address <$> concat (tierWinners tiers players seed)) as Ha.
  { apply (tierLoop_results_dom tiers
             (mkDrawState (createSeededRandom seed) ∅ (positive players) [])).
    - intros a'. simpl. rewrite lookup_empty, elem_of_nil.
      split; [by intros [? ?] | done].
    - by exists r. }
  apply list_elem_of_fmap in Ha as (w & -> & Hw).
  apply elem_of_concat_inv in Hw as (j & ws' & Hj & Hw).
  assert (is_Some (tiers !! j)) as [t' Ht'].
  { apply lookup_lt_is_Some. rewrite <- Hlen. by eapply lookup_lt_Some. }
  pose proof (Hrec j t' ws' w Ht' Hj Hw) as Hr'.
  fold (conductDrawWith tiers players seed) in Hr'.
  rewrite Hr in Hr'. injection Hr' as ->. simpl in Htier.
  assert (j = i) as ->.
  { eapply (NoDup_lookup (name <$> tiers)); [done | |].
    - by rewrite list_lookup_fmap, Ht'.
    - by rewrite list_lookup_fmap, Ht, Htier. }
  assert (ws' = ws) as ->.
  { rewrite ?tierWinners_eq in Hws, Hj. congruence. }
  assert (t' = t) as -> by congruence.
  split; [by apply list_elem_of_fmap_2 | done].
Qed.

Lemma tierEntries_count tiers players seed entries i t ws :
  NoDup (address <$> players) → NoDup (name <$> tiers) →
  entries ≡ₚ map_to_list (conductDrawWith tiers players seed) →
  tiers !! i = Some t → tierWinners tiers players seed !! i = Some ws →
  length (tierEntries entries t) = length ws ∧
  Forall (λ e, amount (snd e) = initPerWinner t) (tierEntries entries t).
Proof.
  intros Hnd Hnames Hentries Ht Hws.
  assert (∀ a r, (a, r) ∈ entries ↔ conductDrawWith tiers players seed !! a = Some r)
    as Hin.
  { intros a r. rewrite Hentries. apply elem_of_map_to_list. }
  split.
  - rewrite <- (length_fmap fst), <- (length_fmap address ws).
    apply Permutation_length, NoDup_Permutation.
    + apply (sublist_NoDup _ (entries.*1)).
      * rewrite Hentries. apply NoDup_fst_map_to_list.
      * apply fmap_sublist, sublist_filter.
    + eapply NoDup_fmap_concat_lookup; [| exact Hws].
      unfold tierWinners, conductDrawState.
      pose proof (tierLoop_NoDup tiers
        (mkDrawState (createSeededRandom seed) ∅ (positive players) [])
        (eligible_NoDup players Hnd)) as Hinv.
      rewrite fmap_app in Hinv. by apply NoDup_app in Hinv as (? & _ & _).
    + intros a. rewrite list_elem_of_fmap. split.
      * intros ([a' r] & -> & He). apply list_elem_of_filter in He as [Htier He].
        simpl in *. apply Hin in He.
        by destruct (entry_of_tier tiers players seed i t ws a' r).
      * intros (w & -> & Hw)%list_elem_of_fmap.
        destruct (recorded_draw tiers players seed) as (_ & _ & _ & Hrec).
        pose proof (Hrec i t ws w Ht Hws Hw) as Hr.
        exists (address w, mkTierResult (name t) (initPerWinner t)).
        split; [done |]. apply list_elem_of_filter. split; [done |]. by apply Hin.
  - apply Forall_forall. intros [a r] He.
    apply list_elem_of_filter in He as [Htier He]. simpl in *. apply Hin in He.
    by destruct (entry_of_tier tiers players seed i t ws a r).
Qed.

Lemma tierTotal_const es (amt c : Z) :
  Forall (λ e, amount (snd e) = amt) es → 0 ≤ amt → 0 ≤ c →
  c + Z.of_nat (length es) * amt < 2 ^ 53 →
  fold_left (λ sum e, num_add sum (amount (snd e))) es c
  = c + Z.of_nat (length es) * amt.
Proof.
  intros Hall Hamt. revert c. induction Hall as [| e es He _ IH]; intros c Hc Hsmall.
  { cbn. lia. }
  rewrite fold_left_step. cbn [length] in *. rewrite Nat2Z.inj_succ in *.
  unfold num_add at 2. rewrite He, round53_exact by nia.
  rewrite IH; nia.
Qed.

(** The summary of a draw over distinct addresses, whatever the iteration
    order of the map: per tier, the logged number of winners is the number
    drawn for the tier, at most the configured one, and the logged amount is
    that number times the tier's payout; the logged total is their sum, at
    most 50000. *)
Theorem printSummary_matches_draw players seed entries :
  NoDup (address <$> players) →
  entries ≡ₚ map_to_list (conductDraw players seed) →
  playersWithTickets (printSummary players entries) = length (positive players) ∧
  ts_winners <$> sm_tiers (printSummary players entries)
  = length <$> tierWinners PRIZE_TIERS players seed ∧
  Forall2 (λ t s, ts_name s = name t ∧ (ts_winners s ≤ winners t)%nat ∧
                  ts_total s = Z.of_nat (ts_winners s) * initPerWinner t)
    PRIZE_TIERS (sm_tiers (printSummary players entries)) ∧
  totalDistributed (printSummary players entries)
  = foldr Z.add 0 (ts_total <$> sm_tiers (printSummary players entries)) ∧
  totalDistributed (printSummary players entries) ≤ 50000.
Proof.
  intros Hnd Hentries. rewrite conductDraw_eq in Hentries.
  assert (NoDup (name <$> PRIZE_TIERS)) as Hnames.
  { apply (bool_decide_unpack _). by vm_compute. }
  destruct (recorded_draw PRIZE_TIERS players seed) as (Hlen & _).
  rewrite <- tierWinners_eq in Hlen.
  destruct (tierWinners PRIZE_TIERS players seed) as [| w1 [| w2 [| w3 [| ? ?]]]] eqn:Hdrawn;
    try discriminate Hlen.
  destruct (tierEntries_count PRIZE_TIERS players seed entries 0
              (mkTier "Grand Prize" 5 2500) w1 Hnd Hnames Hentries eq_refl)
    as [Hc1 Ha1]; [by rewrite Hdrawn |].
  destruct (tierEntries_count PRIZE_TIERS players seed entries 1
              (mkTier "Major Prize" 20 1125) w2 Hnd Hnames Hentries eq_refl)
    as [Hc2 Ha2]; [by rewrite Hdrawn |].
  destruct (tierEntries_count PRIZE_TIERS players seed entries 2
              (mkTier "Minor Prize" 50 300) w3 Hnd Hnames Hentries eq_refl)
    as [Hc3 Ha3]; [by rewrite Hdrawn |].
  assert (length w1 ≤ 5 ∧ length w2 ≤ 20 ∧ length w3 ≤ 50)%nat as (Hb1 & Hb2 & Hb3).
  { pose proof (drawn_at_most PRIZE_TIERS players seed) as Hle.
    rewrite Hdrawn in Hle. unfold PRIZE_TIERS in Hle.
    apply Forall2_cons in Hle as [H1 Hle]. apply Forall2_cons in Hle as [H2 Hle].
    apply Forall2_cons in Hle as [H3 _]. cbn [winners] in H1, H2, H3. done. }
  simpl in Ha1, Ha2, Ha3.
  pose proof (tierTotal_const _ 2500 0 Ha1 ltac:(lia) ltac:(lia) ltac:(lia)) as Ht1.
  pose proof (tierTotal_const _ 1125 0 Ha2 ltac:(lia) ltac:(lia) ltac:(lia)) as Ht2.
  pose proof (tierTotal_const _ 300 0 Ha3 ltac:(lia) ltac:(lia) ltac:(lia)) as Ht3.
  unfold printSummary, printSummaryWith, PRIZE_TIERS, summarizeTier, tierTotal.
  cbn [fmap list_fmap playersWithTickets sm_tiers totalDistributed ts_winners ts_total
       ts_name name winners initPerWinner fold_left foldr].
  rewrite Ht1, Ht2, Ht3, Hc1, Hc2, Hc3.
  unfold num_add.
  set (n1 := Z.of_nat (length w1)). set (n2 := Z.of_nat (length w2)).
  set (n3 := Z.of_nat (length w3)).
  assert (0 ≤ n1 ≤ 5 ∧ 0 ≤ n2 ≤ 20 ∧ 0 ≤ n3 ≤ 50) as Hn by lia.
  rewrite (round53_exact (0 + (0 + n1 * 2500))) by lia.
  rewrite (round53_exact (0 + (0 + n1 * 2500) + (0 + n2 * 1125))) by lia.
  rewrite (round53_exact (0 + (0 + n1 * 2500) + (0 + n2 * 1125) + (0 + n3 * 300)))
    by lia.
  split; [done |]. split; [done |]. split; [| lia].
  repeat (constructor; [cbn; split; [done | split; lia] |]). constructor.
Qed.

Lemma printSummary_matches_draw_witness :
  NoDup (address <$> examplePlayers) ∧
  map_to_list (conductDraw examplePlayers "test")
  ≡ₚ map_to_list (conductDraw examplePlayers "test") ∧
  totalDistributed
    (printSummary examplePlayers (map_to_list (conductDraw examplePlayers "test")))
  ≤ 50000.
Proof.
  assert (NoDup (address <$> examplePlayers)) as Hnd.
  { apply (bool_decide_unpack _). by vm_compute. }
  split; [exact Hnd |]. split; [reflexivity |].
  exact (proj2 (proj2 (proj2 (proj2 (printSummary_matches_draw examplePlayers "test" _
                                       Hnd (reflexivity _)))))).
Defined.

End SummaryExtras.

(** ** More on the store *)

Section StoreExtras.

Implicit Types (σ : Store) (refs : list loc) (ps : list PlayerEntry).

Lemma weightedRandomDrawM_result σ players count wl σ' :
  weightedRandomDrawM players count σ = Some (wl, σ') →
  wl = fresh (dom (st_arrays σ)).
Proof.
  unfold weightedRandomDrawM, bindM, newArray, retM.
  repeat case_match; intros; simplify_eq; done.
Qed.

(** The array the sampler returns is a new one: its location held no array
    before the call, so it is not the caller's [players]. *)
Theorem weightedRandomDrawM_returns_new_array σ players count refs wl σ' :
  st_arrays σ !! players = Some refs →
  weightedRandomDrawM players count σ = Some (wl, σ') →
  st_arrays σ !! wl = None ∧ wl ≠ players.
Proof.
  intros Hpl Hrun. apply weightedRandomDrawM_result in Hrun as ->.
  split; [apply fresh_array_unused |].
  intros Heq. rewrite <- Heq in Hpl. by rewrite fresh_array_unused in Hpl.
Qed.

Lemma weightedRandomDrawM_returns_new_array_witness :
  st_arrays exampleStore !! 1%positive = Some [1; 2; 3]%positive ∧
  ∃ wl σ', weightedRandomDrawM 1%positive 2 exampleStore = Some (wl, σ') ∧
           st_arrays exampleStore !! wl = None ∧ wl ≠ 1%positive.
Proof.
  assert (st_arrays exampleStore !! 1%positive = Some [1; 2; 3]%positive) as Hpl
    by (by vm_compute).
  split; [exact Hpl |].
  destruct (weightedRandomDrawM 1%positive 2 exampleStore) as [[wl σ'] |] eqn:Hrun;
    [| by vm_compute in Hrun].
  exists wl, σ'. split; [done |].
  exact (weightedRandomDrawM_returns_new_array exampleStore 1%positive 2 _ wl σ' Hpl Hrun).
Defined.

(** Two draws in a row on the same store return the same map: the second
    run finds [players] as the first one found it, and the generator state
    the first run left behind is replaced by the seed's. *)
Theorem conductDrawM_twice tiers σ players seed refs ps :
  st_arrays σ !! players = Some refs → resolve σ refs = Some ps →
  ∃ results σ1 σ2,
    conductDrawM tiers players seed σ = Some (results, σ1) ∧
    conductDrawM tiers players seed σ1 = Some (results, σ2) ∧
    extends σ σ2.
Proof.
  intros Hpl Hres.
  destruct (conductDrawM_spec tiers σ players seed refs ps Hpl Hres) as (σ1 & Hrun1 & Hext1).
  destruct (conductDrawM_spec tiers σ1 players seed refs ps) as (σ2 & Hrun2 & Hext2).
  - by apply Hext1.
  - by rewrite (resolve_objects σ σ1) by apply Hext1.
  - exists (conductDrawWith tiers ps seed), σ1, σ2.
    split; [done |]. split; [done |]. by eapply extends_trans.
Qed.

Lemma conductDrawM_twice_witness :
  st_arrays exampleStore !! 1%positive = Some [1; 2; 3]%positive ∧
  resolve exampleStore [1; 2; 3]%positive = Some examplePlayers ∧
  ∃ results σ1 σ2,
    conductDrawM PRIZE_TIERS 1%positive "test" exampleStore = Some (results, σ1) ∧
    conductDrawM PRIZE_TIERS 1%positive "test" σ1 = Some (results, σ2) ∧
    extends exampleStore σ2.
Proof.
  assert (st_arrays exampleStore !! 1%positive = Some [1; 2; 3]%positive) as Hpl
    by (by vm_compute).
  assert (resolve exampleStore [1; 2; 3]%positive = Some examplePlayers) as Hres
    by (by vm_compute).
  split; [exact Hpl |]. split; [exact Hres |].
  exact (conductDrawM_twice PRIZE_TIERS exampleStore 1%positive "test" _ _ Hpl Hres).
Defined.

End StoreExtras.
